(** * The application registry of just-start-server (src/core/application.ts)

    A shallow embedding of the registry and reconciliation engine: the error
    value and its rendering, the kind lookup, and the [container] namespace
    with its cache of live handles.  Handles are JavaScript objects that the
    cache and its callers share by reference, so the embedding keeps an
    explicit object heap and lets the cache hold references into it. *)

From Stdlib Require Import String Ascii ZArith NArith List Bool Lia.
From Stdlib Require Import DecimalString.
From stdpp Require Import base list strings.

Local Open Scope string_scope.
Local Open Scope list_scope.

(** ** Values thrown and results of asynchronous calls *)

(** [class ApplicationError]: [msg] is mandatory, [code] optional
    ([None] is JavaScript's [undefined]). *)
Record ApplicationError := mkApplicationError {
  msg : string;
  code : option string
}.

Module ErrorCodes.
Definition FatalFailure := "E_AP_FAIL".
Definition NotReady := "E_AP_NTRY".
Definition NotFound := "E_AP_NTFN".
Definition NotFoundTargetDeploy := "E_AP_NFTD".
Definition NotMatchConfDeploy := "E_AP_NMSC".
Definition NotFoundWorkspace := "E_AP_NFWS".
Definition NoValidAppType := "E_AP_NVAT".
Definition NotAvailablePort := "E_AP_NAVP".
Definition InaccessibleResources := "E_AP_IACR".
Definition InvalidInternalResource := "E_AP_IVIR".
End ErrorCodes.

(** [new ApplicationError(m)]: the one-argument form used by the registry. *)
Definition newError (m : string) : ApplicationError :=
  {| msg := m; code := None |}.

(** JavaScript truthiness of a string: every string but the empty one. *)
Definition truthy (s : string) : bool := negb (String.eqb s "").

Section Rendering.
(** The message table lives in ../messages, outside this file: its two
    entry points are taken as they are imported. *)
Variable existsCode : string -> bool.
Variable getMessage : string -> string.

(** [ApplicationError.prototype.toString] *)
Definition toString (e : ApplicationError) : string :=
  let byMsg := if existsCode (msg e) then getMessage (msg e) else msg e in
  match code e with
  | Some c =>
      if truthy c && existsCode c
      then getMessage c +:+ (if truthy (msg e) then " (" +:+ msg e +:+ ")" else "")
      else byMsg
  | None => byMsg
  end.
End Rendering.

Inductive Thrown :=
| AppError (e : ApplicationError)   (* an ApplicationError *)
| Failure (reason : string).        (* any other rejection of a collaborator *)

Inductive Result (A : Type) :=
| Ok (a : A)
| Err (t : Thrown).
Arguments Ok {A} a.
Arguments Err {A} t.

(** ** Kinds *)

Inductive AppTypes := TOMCAT | SPRING_BOOT.

Definition AppTypes_value (t : AppTypes) : string :=
  match t with
  | TOMCAT => "TOMCAT"
  | SPRING_BOOT => "SPRING_BOOT"
  end.

(** [AppTypes[k]]: indexing the enum object with a string read from the
    configuration file.  The two member names map to themselves; any other
    key gives no member ([None] stands for [undefined] and for every other
    non-member value, which the switch below treats alike). *)
Definition AppTypes_index (k : string) : option string :=
  if String.eqb k "TOMCAT" then Some "TOMCAT"
  else if String.eqb k "SPRING_BOOT" then Some "SPRING_BOOT"
  else None.

(** [findClassModule]: the class is identified by its kind. *)
Definition findClassModule (type : option string) : Result AppTypes :=
  match type with
  | Some t =>
      if String.eqb t "TOMCAT" then Ok TOMCAT
      else if String.eqb t "SPRING_BOOT" then Ok SPRING_BOOT
      else Err (AppError (newError ErrorCodes.NoValidAppType))
  | None => Err (AppError (newError ErrorCodes.NoValidAppType))
  end.

(** ** Configuration records and handles *)

Inductive PropValue :=
| VNum (n : Z)
| VStr (s : string).

(** [changeable] is read through [!!], so an absent flag is [false]. *)
Record ConfigurationProperty := mkProperty {
  key : string;
  value : PropValue;
  changeable : bool
}.

Record ConfigApplication := mkConfig {
  id : string;
  type : string;
  appPath : string;
  properties : list ConfigurationProperty
}.

Definition Uri := string.

(** An application object: the IRunnable fields the registry reads plus the
    public [config] of ConfigurationAccessor. *)
Record Handle := mkHandle {
  h_type : AppTypes;
  h_uri : Uri;
  config : ConfigApplication
}.

(** Modelled from the spec: the ConfigurationAccessor base class
    (./configuration) is not part of this file.  The identity accessor reads
    the id of the record the handle is bound to. *)
Definition getId (h : Handle) : string := id (config h).

(** Modelled from the spec: [setConfig] of ConfigurationAccessor replaces the
    handle's [config] and nothing else. *)
Definition setConfig (c : ConfigApplication) (h : Handle) : Handle :=
  {| h_type := h_type h; h_uri := h_uri h; config := c |}.

(** Modelled from the spec: [getProperties] of ConfigurationAccessor; on a
    freshly constructed handle it is the kind's default property set. *)
Definition getProperties (h : Handle) : list ConfigurationProperty :=
  properties (config h).

(** [app.config.properties = ps] *)
Definition setProperties (ps : list ConfigurationProperty) (h : Handle) : Handle :=
  setConfig {| id := id (config h); type := type (config h);
               appPath := appPath (config h); properties := ps |} h.

(** ** The world the registry runs in *)

(** A reference to an application object. *)
Abbreviation Ref := nat (only parsing).

(** Calls that leave the registry, in the order they are made. *)
Inductive Event :=
| Detach (i : string)                   (* accessor.detachConfigApplication(i) *)
| Write (cs : list ConfigApplication)   (* accessor.writeConfigApplication(cs) *)
| Init (r : Ref).                       (* r.init() *)

(** What the collaborators answer.  None of them is in this file, so each is
    taken as given.
    - [readConfigFile]: the outcome of [accessor.readConfigFile()], already
      projected to its [apps];
    - [detachSettled i]: whether the promise of
      [accessor.detachConfigApplication(i)] is fulfilled early enough for the
      callback that awaits it to resume before [loadFromConfigurations]
      itself resumes from awaiting the result of [forEach];
    - [writeConfigApplication]: [None] when the write succeeds;
    - [init]: outcome of the kind's [init()] on a handle, [None] on success;
    - [dateNow]: [Date.now()];
    - [defaultProperties]: the property set a kind's constructor installs. *)
Record Collaborators := mkCollaborators {
  readConfigFile : Result (list ConfigApplication);
  detachSettled : string -> bool;
  writeConfigApplication : list ConfigApplication -> option Thrown;
  init : Handle -> option Thrown;
  dateNow : N;
  defaultProperties : AppTypes -> list ConfigurationProperty
}.

(** [uri] and [_cache] are the two variables of [namespace container];
    [heap] holds every application object constructed so far (a reference is
    an index into it) and [events] the calls made to the collaborators. *)
Record State := mkState {
  uri : option Uri;
  _cache : list Ref;
  heap : list Handle;
  events : list Event
}.

Definition with_uri (u : option Uri) (s : State) : State :=
  {| uri := u; _cache := _cache s; heap := heap s; events := events s |}.
Definition with_cache (c : list Ref) (s : State) : State :=
  {| uri := uri s; _cache := c; heap := heap s; events := events s |}.
Definition with_heap (h : list Handle) (s : State) : State :=
  {| uri := uri s; _cache := _cache s; heap := h; events := events s |}.
Definition with_events (e : list Event) (s : State) : State :=
  {| uri := uri s; _cache := _cache s; heap := heap s; events := e |}.

(** A computation that may throw; what it did to the state before throwing
    stays done. *)
Definition M (A : Type) : Type := State -> Result A * State.

#[export] Instance M_ret : MRet M := fun A a s => (Ok a, s).
#[export] Instance M_bind : MBind M := fun A B f m s =>
  match m s with
  | (Ok a, s') => f a s'
  | (Err t, s') => (Err t, s')
  end.

Definition get : M State := fun s => (Ok s, s).
Definition modify (f : State -> State) : M unit := fun s => (Ok tt, f s).
Definition throw {A} (t : Thrown) : M A := fun s => (Err t, s).
Definition await {A} (r : Result A) : M A := fun s => (r, s).
Definition emit (e : Event) : M unit :=
  modify (fun s => with_events (events s ++ [e]) s).

(** Reading and updating an object through a reference.  References handed
    out by [new] always point into the heap; a dangling one has no
    counterpart in the source. *)
Definition deref (r : Ref) : M Handle := fun s =>
  match heap s !! r with
  | Some h => (Ok h, s)
  | None => (Err (Failure "dangling reference"), s)
  end.
Definition update (r : Ref) (f : Handle -> Handle) : M unit :=
  modify (fun s => with_heap (alter f r (heap s)) s).

(** ** namespace container *)

(** [_cache.some(_a => _a.getId() === i)] *)
Definition hasId (s : State) (i : string) (r : Ref) : bool :=
  match heap s !! r with
  | Some h => String.eqb (getId h) i
  | None => false
  end.

Definition cached (s : State) (i : string) : bool :=
  existsb (hasId s i) (_cache s).

(** [initialize] *)
Definition initialize (_uri : Uri) : M unit :=
  modify (with_uri (Some _uri)).

(** [getWorkspaceUri] *)
Definition getWorkspaceUri : M (option Uri) :=
  s ← get; mret (uri s).

(** [reset] *)
Definition reset : M unit :=
  modify (with_cache []).

(** ["App" + Date.now()] *)
Definition generatedId (now : N) : string :=
  "App" +:+ NilZero.string_of_uint (N.to_uint now).

(** Modelled from the spec: the constructors of the kinds (../apps) are not
    part of this file.  A new application object is bound to the given id and
    workspace location and carries its kind's default properties; its
    [appPath] is still empty. *)
Definition construct (E : Collaborators) (App : AppTypes) (i : string) (u : Uri) : Handle :=
  {| h_type := App; h_uri := u;
     config := {| id := i; type := AppTypes_value App; appPath := "";
                  properties := defaultProperties E App |} |}.

(** [new App(id, uri)]: the object is allocated at the next free reference. *)
Definition new (E : Collaborators) (App : AppTypes) (i : string) (u : Uri) : M Ref :=
  fun s => (Ok (length (heap s)), with_heap (heap s ++ [construct E App i u]) s).

(** [id || "App" + Date.now()]: an absent id and the empty string are both
    replaced. *)
Definition idOrGenerated (E : Collaborators) (id : option string) : string :=
  match id with
  | Some i => if truthy i then i else generatedId (dateNow E)
  | None => generatedId (dateNow E)
  end.

(** [createApplication] *)
Definition createApplication (E : Collaborators)
    (type : option string) (id : option string) : M Ref :=
  s ← get;
  match uri s with
  | None => throw (AppError (newError ErrorCodes.NotFoundWorkspace))
  | Some u =>
      let id := idOrGenerated E id in
      App ← await (findClassModule type);
      new E App id u
  end.

(** The property merge of [_initializeApplication]:
    [pure.map(p => prev.some(pv => pv.key === p.key && !!pv.changeable)
                   ? prev.find(pv => pv.key === p.key)! : p)].
    When [some] holds, [find] cannot come back empty. *)
Definition mergeProperties (pure prev : list ConfigurationProperty)
    : list ConfigurationProperty :=
  map (fun p =>
         if existsb (fun pv => String.eqb (key pv) (key p) && changeable pv) prev
         then match find (fun pv => String.eqb (key pv) (key p)) prev with
              | Some pv => pv
              | None => p
              end
         else p) pure.

(** [app.init()] *)
Definition initApp (E : Collaborators) (app : Ref) : M unit :=
  emit (Init app);;
  h ← deref app;
  match init E h with
  | Some t => throw t
  | None => mret tt
  end.

(** [_initializeApplication] *)
Definition _initializeApplication (E : Collaborators) (config : ConfigApplication) : M Ref :=
  app ← createApplication E (AppTypes_index (type config)) (Some (id config));
  h ← deref app;
  let pure := getProperties h in
  update app (setConfig config);;
  let prev := properties config in
  update app (setProperties (mergeProperties pure prev));;
  initApp E app;;
  mret app.

(** One round of the [forEach] in [setAppsToContainer]. *)
Definition upsert (app : Ref) : M unit :=
  a ← deref app;
  s ← get;
  if cached s (getId a) then
    match find (hasId s (getId a)) (_cache s) with
    | Some temp => update temp (setConfig (config a))
    | None => mret tt
    end
  else modify (fun s => with_cache (_cache s ++ [app]) s).

Fixpoint forEach {A} (f : A -> M unit) (l : list A) : M unit :=
  match l with
  | [] => mret tt
  | x :: l => f x;; forEach f l
  end.

(** [setAppsToContainer]; the array it returns is [_cache] itself. *)
Definition setAppsToContainer (apps : list Ref) : M (list Ref) :=
  forEach upsert apps;;
  s ← get; mret (_cache s).

(** [getApplication] *)
Definition getApplication (i : string) : M (option Ref) :=
  s ← get; mret (find (hasId s i) (_cache s)).

(** [getApplications] *)
Definition getApplications : M (list Ref) :=
  s ← get; mret (_cache s).

Definition invalid (app : ConfigApplication) : bool := negb (truthy (appPath app)).

(** The prune pass of [loadFromConfigurations].  [forEach] runs every
    callback up to its [await]: the detach requests are made at once, in
    order.  [forEach] gives back [undefined], so the outer [await] waits for
    no callback: a callback gets to blank its slot before the selection only
    when its own request has settled by then. *)
Definition detachRequests (apps : list ConfigApplication) : list Event :=
  map (fun app => Detach (id app)) (List.filter invalid apps).

Definition pruned (E : Collaborators) (apps : list ConfigApplication)
    : list (option ConfigApplication) :=
  map (fun app =>
         if invalid app && detachSettled E (id app) then None else Some app) apps.

(** [.filter(app => app !== undefined)
     .filter(app => !_cache.some(loaded => loaded.getId() === app.id))] *)
Definition selection (s : State) (apps : list (option ConfigApplication))
    : list ConfigApplication :=
  List.filter (fun app => negb (cached s (id app))) (omap (fun app => app) apps).

(** [for (tempConf of appConfigs) apps.push(await _initializeApplication(tempConf))] *)
Fixpoint initializeAll (E : Collaborators) (appConfigs : list ConfigApplication)
    : M (list Ref) :=
  match appConfigs with
  | [] => mret []
  | tempConf :: rest =>
      app ← _initializeApplication E tempConf;
      apps ← initializeAll E rest;
      mret (app :: apps)
  end.

(** [apps.map(app => app.config)] *)
Fixpoint configsOf (apps : list Ref) : M (list ConfigApplication) :=
  match apps with
  | [] => mret []
  | app :: rest =>
      h ← deref app;
      cs ← configsOf rest;
      mret (config h :: cs)
  end.

(** [loadFromConfigurations] *)
Definition loadFromConfigurations (E : Collaborators) (exactly : bool) : M unit :=
  apps ← await (readConfigFile E);
  (if exactly then modify (with_cache []) else mret tt);;
  apps ← (if existsb invalid apps
          then modify (fun s => with_events (events s ++ detachRequests apps) s);;
               mret (pruned E apps)
          else mret (Some <$> apps));
  s ← get;
  let appConfigs := selection s apps in
  apps ← initializeAll E appConfigs;
  cs ← configsOf apps;
  emit (Write cs);;
  match writeConfigApplication E cs with
  | Some t => throw t
  | None => mret tt
  end;;
  setAppsToContainer apps;;
  mret tt.

(** * Vocabulary of the properties *)

(** The cache refers to allocated objects only. *)
Definition wf (s : State) : Prop :=
  Forall (fun r => r < length (heap s)) (_cache s).

(** The ids of the cached handles, in cache order. *)
Definition cachedIds (s : State) : list string :=
  omap (fun r => getId <$> heap s !! r) (_cache s).

(** ** The property merge *)

(** [m] is the first property of [prev] whose key is [k]. *)
Definition firstWithKey (k : string) (prev : list ConfigurationProperty)
    (m : ConfigurationProperty) : Prop :=
  exists before after,
    prev = before ++ m :: after /\ key m = k /\
    Forall (fun q => key q <> k) before.

Definition hasChangeable (k : string) (prev : list ConfigurationProperty) : Prop :=
  exists pv, In pv prev /\ key pv = k /\ changeable pv = true.

(** What the merge keeps for one template property. *)
Definition keptFor (prev : list ConfigurationProperty)
    (p m : ConfigurationProperty) : Prop :=
  (hasChangeable (key p) prev -> firstWithKey (key p) prev m) /\
  (~ hasChangeable (key p) prev -> m = p).

(** The handle [_initializeApplication] leaves behind for a record: bound to
    the record, with the merged properties. *)
Definition merged (E : Collaborators) (App : AppTypes) (c : ConfigApplication)
    : ConfigApplication :=
  {| id := id c; type := type c; appPath := appPath c;
     properties := mergeProperties (defaultProperties E App) (properties c) |}.

Definition bound (E : Collaborators) (u : Uri) (App : AppTypes)
    (c : ConfigApplication) : Handle :=
  {| h_type := App; h_uri := u; config := merged E App c |}.

Definition classOf (c : ConfigApplication) : Result AppTypes :=
  findClassModule (AppTypes_index (type c)).

(** ** The construction loop in closed form *)

(** How far the loop over the selected records gets, and the handles it has
    allocated by then. *)
Fixpoint builds (E : Collaborators) (u : option Uri) (cs : list ConfigApplication)
    : Result unit * list Handle :=
  match cs with
  | [] => (Ok tt, [])
  | c :: cs =>
      match u with
      | None => (Err (AppError (newError ErrorCodes.NotFoundWorkspace)), [])
      | Some u' =>
          match classOf c with
          | Err t => (Err t, [])
          | Ok App =>
              let h := bound E u' App c in
              match init E h with
              | Some t => (Err t, [h])
              | None => let (r, hs) := builds E u cs in (r, h :: hs)
              end
          end
      end
  end.

(** The state after [hs] were allocated and initialised in turn. *)
Definition allocated (hs : list Handle) (s : State) : State :=
  with_events (events s ++ map Init (seq (length (heap s)) (length hs)))
    (with_heap (heap s ++ hs) s).

(** ** One round of the upsert *)

Definition idAt (s : State) (r : Ref) : option string := getId <$> heap s !! r.

(** [temp] is the first entry of the cache whose id is [i]. *)
Definition firstCached (s : State) (i : string) (temp : Ref) : Prop :=
  exists before after,
    _cache s = before ++ temp :: after /\ idAt s temp = Some i /\
    Forall (fun r => idAt s r <> Some i) before.

(** The state one round leaves, for the object [a] that [app] refers to. *)
Definition upserted (a : Handle) (app : Ref) (s : State) : State :=
  if cached s (getId a) then
    match find (hasId s (getId a)) (_cache s) with
    | Some temp => with_heap (alter (setConfig (config a)) temp (heap s)) s
    | None => s
    end
  else with_cache (_cache s ++ [app]) s.

(** [upsert] on whatever [app] refers to; a dangling reference does nothing. *)
Definition upsertedAt (app : Ref) (s : State) : State :=
  match heap s !! app with
  | Some a => upserted a app s
  | None => s
  end.

Definition upsertAll (apps : list Ref) (s : State) : State :=
  fold_left (fun s app => upsertedAt app s) apps s.

(** ** [loadFromConfigurations] in closed form *)

Definition cleared (exactly : bool) (s : State) : State :=
  if exactly then with_cache [] s else s.

Definition requested (apps : list ConfigApplication) (s : State) : State :=
  with_events (events s ++ detachRequests apps) s.

(** The records [loadFromConfigurations] goes on to construct. *)
Definition selected (E : Collaborators) (exactly : bool)
    (apps : list ConfigApplication) (s : State) : list ConfigApplication :=
  selection (cleared exactly s) (pruned E apps).

(** ** createApplication *)

Definition registeredKind (ty : option string) : Prop :=
  ty = Some "TOMCAT" \/ ty = Some "SPRING_BOOT".

(** A record read from the file and bound to a handle of some kind. *)
Definition boundTo (E : Collaborators) (apps : list ConfigApplication)
    (cfg : ConfigApplication) : Prop :=
  exists c App, In c apps /\ classOf c = Ok App /\ cfg = merged E App c.

(** ** Events of a load *)

Definition fromLoad (n : nat) (e : Event) : Prop :=
  match e with
  | Init r => n <= r
  | Write _ => True
  | Detach _ => False
  end.

(** ** Failure of [init] *)

Definition boundOf (E : Collaborators) (u : Uri) (c : ConfigApplication)
    : option Handle :=
  match classOf c with
  | Ok App => Some (bound E u App c)
  | Err _ => None
  end.

(** The record is constructed and its [init] succeeds. *)
Definition succeeds (E : Collaborators) (u : Uri) (c : ConfigApplication) : Prop :=
  exists h, boundOf E u c = Some h /\ init E h = None.

(** ** Uniqueness of cached ids *)

(** The operations of the registry, as its callers see them. *)
Inductive Call :=
| CallInitialize (u : Uri)
| CallReset
| CallCreateApplication (E : Collaborators) (type id : option string)
| CallLoadFromConfigurations (E : Collaborators) (exactly : bool)
| CallSetAppsToContainer (apps : list Ref)
| CallGetApplication (i : string)
| CallGetApplications.

Definition perform (c : Call) (s : State) : State :=
  match c with
  | CallInitialize u => snd (initialize u s)
  | CallReset => snd (reset s)
  | CallCreateApplication E type id => snd (createApplication E type id s)
  | CallLoadFromConfigurations E exactly => snd (loadFromConfigurations E exactly s)
  | CallSetAppsToContainer apps => snd (setAppsToContainer apps s)
  | CallGetApplication i => snd (getApplication i s)
  | CallGetApplications => snd (getApplications s)
  end.

(** The states the registry can be in when it starts from an empty cache. *)
Inductive reachable : State -> Prop :=
| reachable_start s : _cache s = [] -> reachable s
| reachable_call s c : reachable s -> reachable (perform c s).

(** ** The ids of a cache after an upsert *)

(** The cached ids once a handle with id [i] has had its turn. *)
Definition addId (acc : list string) (i : string) : list string :=
  if existsb (String.eqb i) acc then acc else acc ++ [i].

Definition addIds (acc ids : list string) : list string :=
  fold_left addId ids acc.

(** Two states that are the same but, possibly, for the config of the
    object at [t]. *)
Definition agreeBut (t : Ref) (s s' : State) : Prop :=
  uri s' = uri s /\ events s' = events s /\ _cache s' = _cache s /\
  (forall r, r <> t -> heap s' !! r = heap s !! r) /\
  (forall c, setConfig c <$> heap s' !! t = setConfig c <$> heap s !! t) /\
  idAt s' t = idAt s t.

(** ** Sample collaborators, records and states *)

Module Samples.
Definition port (v : Z) (c : bool) := {| key := "port"; value := VNum v; changeable := c |}.

Definition E0 (apps : list ConfigApplication) : Collaborators :=
  {| readConfigFile := Ok apps;
     detachSettled := fun _ => true;
     writeConfigApplication := fun _ => None;
     init := fun _ => None;
     dateNow := 1700000000000%N;
     defaultProperties := fun _ => [port 8080 true] |}.

Definition unset : State := {| uri := None; _cache := []; heap := []; events := [] |}.
Definition ready : State := with_uri (Some "file:///ws") unset.

Definition tomcat (i path : string) (ps : list ConfigurationProperty) :=
  {| id := i; type := "TOMCAT"; appPath := path; properties := ps |}.

Definition recA := tomcat "a" "/opt/a" [port 9090 true].
Definition recA_fixed := tomcat "a" "/opt/a" [port 9090 false].
Definition recB := tomcat "b" "/opt/b" [].
Definition recC := tomcat "c" "/opt/c" [].
(** the record of "a" once its path has been lost *)
Definition recA_blank := tomcat "a" "" [].

(** a workspace in which "a" is already loaded *)
Definition withA : State := snd (loadFromConfigurations (E0 [recA]) false ready).

(** [init] fails on the application "a" and on no other *)
Definition E_initFails (apps : list ConfigApplication) : Collaborators :=
  {| readConfigFile := Ok apps;
     detachSettled := fun _ => true;
     writeConfigApplication := fun _ => None;
     init := fun h => if String.eqb (getId h) "a"
                      then Some (Failure "init failed") else None;
     dateNow := 1700000000000%N;
     defaultProperties := fun _ => [port 8080 true] |}.

(** the configuration file cannot be read *)
Definition E_unreadable : Collaborators :=
  {| readConfigFile := Err (Failure "ENOENT");
     detachSettled := fun _ => true;
     writeConfigApplication := fun _ => None;
     init := fun _ => None;
     dateNow := 1700000000000%N;
     defaultProperties := fun _ => [port 8080 true] |}.

(** detach requests that are still pending when the selection runs *)
Definition E_pending (apps : list ConfigApplication) : Collaborators :=
  {| readConfigFile := Ok apps;
     detachSettled := fun _ => false;
     writeConfigApplication := fun _ => None;
     init := fun _ => None;
     dateNow := 1700000000000%N;
     defaultProperties := fun _ => [port 8080 true] |}.

(** two uncached objects with the same id *)
Definition twins : State :=
  snd (createApplication (E0 []) (Some "SPRING_BOOT") (Some "a")
         (snd (createApplication (E0 []) (Some "TOMCAT") (Some "a") ready))).
End Samples.

(** ** Further samples *)

Module MoreSamples.
(** a record whose type names no kind *)
Definition recUnknown : ConfigApplication :=
  {| id := "u"; type := "JETTY"; appPath := "/opt/u"; properties := [] |}.

(** a property under another key than the port *)
Definition nameProperty : ConfigurationProperty :=
  {| key := "name"; value := VStr "server"; changeable := false |}.

(** the write-back is rejected *)
Definition E_writeFails (apps : list ConfigApplication) : Collaborators :=
  {| readConfigFile := Ok apps;
     detachSettled := fun _ => true;
     writeConfigApplication := fun _ => Some (Failure "EACCES");
     init := fun _ => None;
     dateNow := 1700000000000%N;
     defaultProperties := fun _ => [Samples.port 8080 true] |}.
End MoreSamples.

(** * Lemmas *)

(** ** Running the monad *)

Lemma run_bind {A B} (m : M A) (f : A -> M B) s :
  (m ≫= f) s = match m s with
               | (Ok a, s') => f a s'
               | (Err t, s') => (Err t, s')
               end.
Proof. reflexivity. Qed.

Lemma run_ret {A} (a : A) s : (mret a : M A) s = (Ok a, s).
Proof. reflexivity. Qed.

Ltac run :=
  repeat (rewrite ?run_bind, ?run_ret;
          cbn [get modify throw await emit update fst snd]).

Lemma find_firstWithKey k prev m :
  find (fun pv => String.eqb (key pv) k) prev = Some m -> firstWithKey k prev m.
Proof.
  induction prev as [|q prev IH]; cbn [find]; [discriminate|].
  destruct (String.eqb_spec (key q) k) as [Hk|Hk].
  - intros [= <-]. exists [], prev. repeat split; auto.
  - intros Hf. destruct (IH Hf) as (before & after & -> & Hm & Hb).
    exists (q :: before), after. repeat split; auto.
Qed.

Lemma existsb_hasChangeable k prev :
  existsb (fun pv => String.eqb (key pv) k && changeable pv) prev = true
  <-> hasChangeable k prev.
Proof.
  rewrite existsb_exists. unfold hasChangeable.
  split; intros (pv & Hin & H); exists pv; split; auto.
  - apply andb_true_iff in H as [H1 H2]. apply String.eqb_eq in H1. auto.
  - destruct H as [H1 H2]. apply andb_true_iff. split; auto.
    now apply String.eqb_eq.
Qed.

Lemma find_key_defined k prev :
  hasChangeable k prev ->
  exists m, find (fun pv => String.eqb (key pv) k) prev = Some m.
Proof.
  intros (pv & Hin & Hk & _).
  destruct (find _ prev) as [m|] eqn:Hf; [eauto|].
  apply (find_none _ _ Hf) in Hin. apply String.eqb_neq in Hin. contradiction.
Qed.

Lemma mergeProperties_keeps pure prev :
  Forall2 (keptFor prev) pure (mergeProperties pure prev).
Proof.
  induction pure as [|p pure IH]; cbn [mergeProperties map]; constructor; auto.
  destruct (existsb _ prev) eqn:Hex.
  - apply existsb_hasChangeable in Hex.
    destruct (find_key_defined _ _ Hex) as [m Hm]. rewrite Hm.
    split; [intros _; now apply find_firstWithKey | intros Hn; contradiction].
  - split; [|reflexivity].
    intros Hc. apply existsb_hasChangeable in Hc. congruence.
Qed.

Lemma firstWithKey_unique_changeable k prev m :
  NoDup (map key prev) -> hasChangeable k prev -> firstWithKey k prev m ->
  changeable m = true.
Proof.
  intros Hnd (pv & Hin & Hk & Hc) (before & after & -> & Hm & Hb).
  assert (pv = m) as ->; [|assumption].
  apply in_app_or in Hin as [Hin|[Hin|Hin]]; auto.
  - rewrite List.Forall_forall in Hb. now apply Hb in Hin.
  - exfalso. rewrite map_app in Hnd. apply NoDup_app in Hnd as (_ & _ & Hnd).
    cbn [map] in Hnd. apply NoDup_cons in Hnd as [Hnd _].
    apply Hnd. rewrite Hm, <- Hk. apply list_elem_of_In. now apply in_map.
Qed.

(** ** One call of [createApplication] and of [_initializeApplication] *)

Lemma createApplication_run E ty i s :
  createApplication E ty i s =
  match uri s with
  | None => (Err (AppError (newError ErrorCodes.NotFoundWorkspace)), s)
  | Some u =>
      match findClassModule ty with
      | Ok App =>
          (Ok (length (heap s)),
           with_heap (heap s ++ [construct E App (idOrGenerated E i) u]) s)
      | Err t => (Err t, s)
      end
  end.
Proof.
  unfold createApplication. run.
  destruct (uri s) as [u|]; [|reflexivity]. run.
  destruct (findClassModule ty); reflexivity.
Qed.

Lemma alter_last {A} (f : A -> A) (l : list A) (x : A) :
  alter f (length l) (l ++ [x]) = l ++ [f x].
Proof. rewrite <- (Nat.add_0_r (length l)), alter_app_r. reflexivity. Qed.

Lemma initializeApplication_run E c s :
  _initializeApplication E c s =
  match uri s with
  | None => (Err (AppError (newError ErrorCodes.NotFoundWorkspace)), s)
  | Some u =>
      match classOf c with
      | Err t => (Err t, s)
      | Ok App =>
          (match init E (bound E u App c) with
           | Some t => Err t
           | None => Ok (length (heap s))
           end,
           with_events (events s ++ [Init (length (heap s))])
             (with_heap (heap s ++ [bound E u App c]) s))
      end
  end.
Proof.
  unfold _initializeApplication, classOf in *.
  rewrite run_bind, createApplication_run.
  destruct (uri s) as [u|]; [|reflexivity].
  destruct (findClassModule _) as [App|t]; [|reflexivity].
  unfold initApp, deref. run. cbn [heap with_heap].
  rewrite list_lookup_middle by reflexivity. run.
  cbn [heap with_heap with_events events].
  rewrite !alter_last, list_lookup_middle by reflexivity.
  change (setProperties _ (setConfig c _)) with (bound E u App c).
  destruct (init E (bound E u App c)); reflexivity.
Qed.

Lemma allocated_nil s : allocated [] s = s.
Proof.
  destruct s. unfold allocated, with_events, with_heap. cbn.
  now rewrite !app_nil_r.
Qed.

Lemma allocated_cons h hs s :
  allocated hs (with_events (events s ++ [Init (length (heap s))])
                  (with_heap (heap s ++ [h]) s))
  = allocated (h :: hs) s.
Proof.
  unfold allocated, with_events, with_heap. cbn.
  rewrite length_app, Nat.add_1_r, <- !app_assoc. reflexivity.
Qed.

Lemma initializeAll_run E cs s :
  initializeAll E cs s =
  (match fst (builds E (uri s) cs) with
   | Ok _ => Ok (seq (length (heap s)) (length cs))
   | Err t => Err t
   end,
   allocated (snd (builds E (uri s) cs)) s).
Proof.
  revert s. induction cs as [|c cs IH]; intros s.
  - cbn. now rewrite allocated_nil.
  - cbn [initializeAll builds]. rewrite run_bind, initializeApplication_run.
    destruct (uri s) as [u|] eqn:Hu; [|cbn; now rewrite allocated_nil].
    destruct (classOf c) as [App|t]; [|cbn; now rewrite allocated_nil].
    destruct (init E (bound E u App c)) as [t|]; [reflexivity|].
    rewrite run_bind, IH. cbn [uri with_events with_heap heap].
    rewrite Hu. destruct (builds E (Some u) cs) as [r hs]. cbn [fst snd].
    rewrite allocated_cons, length_app, Nat.add_1_r.
    destruct r; reflexivity.
Qed.

Lemma builds_length E u cs :
  length (snd (builds E u cs)) <= length cs /\
  (forall x, fst (builds E u cs) = Ok x -> length (snd (builds E u cs)) = length cs).
Proof.
  induction cs as [|c cs [IH1 IH2]]; cbn; [auto|].
  destruct u as [u|]; cbn; [|split; [lia|discriminate]].
  destruct (classOf c) as [App|t]; cbn; [|split; [lia|discriminate]].
  destruct (init E _); cbn; [split; [lia|discriminate]|].
  destruct (builds E (Some u) cs) as [r hs]. cbn in *.
  split; [lia|]. intros x Hx. now rewrite (IH2 _ Hx).
Qed.

Lemma seq_lookup_app {A} (l hs : list A) :
  Forall2 (fun r h => (l ++ hs) !! r = Some h) (seq (length l) (length hs)) hs.
Proof.
  revert l. induction hs as [|h hs IH]; intros l; cbn [length seq]; constructor.
  - now apply list_lookup_middle.
  - specialize (IH (l ++ [h])).
    rewrite length_app, Nat.add_1_r, <- app_assoc in IH. exact IH.
Qed.

Lemma configsOf_run rs hs s :
  Forall2 (fun r h => heap s !! r = Some h) rs hs ->
  configsOf rs s = (Ok (map config hs), s).
Proof.
  induction 1 as [|r h rs hs Hr _ IH]; [reflexivity|].
  cbn [configsOf map]. unfold deref at 1. rewrite run_bind, Hr, run_bind, IH.
  reflexivity.
Qed.

Lemma hasId_idAt s i r :
  hasId s i r = true <-> idAt s r = Some i.
Proof.
  unfold hasId, idAt. destruct (heap s !! r) as [h|]; cbn.
  - rewrite String.eqb_eq. split; congruence.
  - split; discriminate.
Qed.

Lemma cachedIds_idAt s : cachedIds s = omap (idAt s) (_cache s).
Proof. reflexivity. Qed.

Lemma cached_cachedIds s i : cached s i = true <-> i ∈ cachedIds s.
Proof.
  unfold cached. rewrite existsb_exists, cachedIds_idAt, list_elem_of_omap.
  split; intros (r & Hr & H); exists r.
  - split; [now apply list_elem_of_In | now apply hasId_idAt].
  - split; [now apply list_elem_of_In | now apply hasId_idAt].
Qed.

Lemma cached_false s i : cached s i = false <-> i ∉ cachedIds s.
Proof.
  rewrite <- cached_cachedIds. destruct (cached s i); split; congruence.
Qed.

Lemma upsert_run app s :
  upsert app s =
  match heap s !! app with
  | Some a => (Ok tt, upserted a app s)
  | None => (Err (Failure "dangling reference"), s)
  end.
Proof.
  unfold upsert, deref, upserted. rewrite run_bind.
  destruct (heap s !! app) as [a|]; [|reflexivity]. run.
  destruct (cached s (getId a)); [|reflexivity].
  destruct (find _ _); reflexivity.
Qed.

Lemma upserted_length a app s : length (heap (upserted a app s)) = length (heap s).
Proof.
  unfold upserted. destruct (cached s (getId a)); [|reflexivity].
  destruct (find _ _); [|reflexivity]. cbn. apply length_alter.
Qed.

Lemma upserted_uri a app s : uri (upserted a app s) = uri s.
Proof.
  unfold upserted. destruct (cached s (getId a)); [|reflexivity].
  destruct (find _ _); reflexivity.
Qed.

Lemma upserted_events a app s : events (upserted a app s) = events s.
Proof.
  unfold upserted. destruct (cached s (getId a)); [|reflexivity].
  destruct (find _ _); reflexivity.
Qed.

(** Replacing the config of the entry found under an id leaves every
    object's id as it was. *)
Lemma upserted_idAt a app s r : idAt (upserted a app s) r = idAt s r.
Proof.
  unfold upserted. destruct (cached s (getId a)); [|reflexivity].
  destruct (find _ _) as [temp|] eqn:Hf; [|reflexivity].
  apply find_some in Hf as [_ Hf]. apply hasId_idAt in Hf.
  unfold idAt in *. cbn [heap with_heap]. rewrite list_lookup_alter.
  destruct (decide (temp = r)) as [->|]; [|reflexivity].
  destruct (heap s !! r); [|discriminate].
  cbn in *. now rewrite Hf.
Qed.

Lemma upserted_cache a app s :
  _cache (upserted a app s) =
  if cached s (getId a) then _cache s else _cache s ++ [app].
Proof.
  unfold upserted. destruct (cached s (getId a)); [|reflexivity].
  destruct (find _ _); reflexivity.
Qed.

Lemma omap_pointwise {A B} (f g : A -> option B) (l : list A) :
  (forall x, f x = g x) -> omap f l = omap g l.
Proof.
  intros H. induction l as [|x l IH]; cbn; [reflexivity|].
  now rewrite H, IH.
Qed.

Lemma upsertedAt_length app s : length (heap (upsertedAt app s)) = length (heap s).
Proof. unfold upsertedAt. destruct (heap s !! app); auto using upserted_length. Qed.

Lemma upsertedAt_uri app s : uri (upsertedAt app s) = uri s.
Proof. unfold upsertedAt. destruct (heap s !! app); auto using upserted_uri. Qed.

Lemma upsertedAt_events app s : events (upsertedAt app s) = events s.
Proof. unfold upsertedAt. destruct (heap s !! app); auto using upserted_events. Qed.

Lemma upsertedAt_idAt app s r : idAt (upsertedAt app s) r = idAt s r.
Proof. unfold upsertedAt. destruct (heap s !! app); auto using upserted_idAt. Qed.

Lemma upsertedAt_cachedIds app s :
  cachedIds (upsertedAt app s) =
  match idAt s app with
  | Some i => if cached s i then cachedIds s else cachedIds s ++ [i]
  | None => cachedIds s
  end.
Proof.
  unfold upsertedAt, idAt at 1. destruct (heap s !! app) as [a|] eqn:Ha; [|reflexivity].
  cbn [fmap option_fmap option_map]. rewrite !cachedIds_idAt, upserted_cache.
  rewrite (omap_pointwise _ (idAt s)) by (intros; apply upserted_idAt).
  destruct (cached s (getId a)); [reflexivity|].
  rewrite omap_app. cbn. unfold idAt at 2. now rewrite Ha.
Qed.

Lemma upsertedAt_NoDup app s :
  NoDup (cachedIds s) -> NoDup (cachedIds (upsertedAt app s)).
Proof.
  intros Hnd. rewrite upsertedAt_cachedIds.
  destruct (idAt s app) as [i|]; [|assumption].
  destruct (cached s i) eqn:Hc; [assumption|].
  apply cached_false in Hc. apply NoDup_app. repeat split; auto.
  - intros x Hx Hx'. apply list_elem_of_singleton in Hx'. now subst.
  - apply NoDup_singleton.
Qed.

Lemma upsertedAt_wf app s : wf s -> wf (upsertedAt app s).
Proof.
  unfold wf. rewrite upsertedAt_length. unfold upsertedAt.
  destruct (heap s !! app) as [a|] eqn:Ha; [|auto].
  rewrite upserted_cache. destruct (cached s (getId a)); [auto|].
  intros H. apply Forall_app. split; [assumption|].
  constructor; [|constructor]. now apply lookup_lt_Some in Ha.
Qed.

Lemma upsertAll_length apps s : length (heap (upsertAll apps s)) = length (heap s).
Proof.
  revert s. induction apps as [|app apps IH]; intros s; cbn; [reflexivity|].
  now rewrite IH, upsertedAt_length.
Qed.

Lemma upsertAll_uri apps s : uri (upsertAll apps s) = uri s.
Proof.
  revert s. induction apps as [|app apps IH]; intros s; cbn; [reflexivity|].
  now rewrite IH, upsertedAt_uri.
Qed.

Lemma upsertAll_events apps s : events (upsertAll apps s) = events s.
Proof.
  revert s. induction apps as [|app apps IH]; intros s; cbn; [reflexivity|].
  now rewrite IH, upsertedAt_events.
Qed.

Lemma upsertAll_idAt apps s r : idAt (upsertAll apps s) r = idAt s r.
Proof.
  revert s. induction apps as [|app apps IH]; intros s; cbn; [reflexivity|].
  now rewrite IH, upsertedAt_idAt.
Qed.

Lemma upsertAll_NoDup apps s :
  NoDup (cachedIds s) -> NoDup (cachedIds (upsertAll apps s)).
Proof.
  revert s. induction apps as [|app apps IH]; intros s; cbn; [auto|].
  intros H. now apply IH, upsertedAt_NoDup.
Qed.

Lemma upsertAll_wf apps s : wf s -> wf (upsertAll apps s).
Proof.
  revert s. induction apps as [|app apps IH]; intros s; cbn; [auto|].
  intros H. now apply IH, upsertedAt_wf.
Qed.

(** The ids cached after the upsert: those cached before and those of the
    handles passed. *)
Lemma upsertAll_cachedIds apps s i :
  i ∈ cachedIds (upsertAll apps s) <->
  i ∈ cachedIds s \/ exists app, In app apps /\ idAt s app = Some i.
Proof.
  revert s. induction apps as [|app apps IH]; intros s; cbn [upsertAll fold_left].
  - split; [auto|]. intros [H|(app & [] & _)]; exact H.
  - change (fold_left _ apps ?x) with (upsertAll apps x). rewrite IH.
    rewrite upsertedAt_cachedIds.
    setoid_rewrite upsertedAt_idAt.
    split.
    + intros [H|(app' & Hin & Hid)].
      * destruct (idAt s app) as [j|] eqn:Hj; [|auto].
        destruct (cached s j); [auto|].
        apply elem_of_app in H as [H|H]; [auto|].
        apply list_elem_of_singleton in H. subst. right. exists app. cbn. auto.
      * right. exists app'. cbn. auto.
    + intros [H|(app' & [->|Hin] & Hid)].
      * left. destruct (idAt s app) as [j|]; [|assumption].
        destruct (cached s j); [assumption|]. apply elem_of_app. auto.
      * left. rewrite Hid. destruct (cached s i) eqn:Hc.
        -- now apply cached_cachedIds.
        -- apply elem_of_app. right. now apply list_elem_of_singleton.
      * right. eauto.
Qed.

Lemma forEach_upsert_run apps s :
  Forall (fun r => r < length (heap s)) apps ->
  forEach upsert apps s = (Ok tt, upsertAll apps s).
Proof.
  revert s. induction apps as [|app apps IH]; intros s Hv; [reflexivity|].
  apply Forall_cons in Hv as [Hv Hvs].
  cbn [forEach upsertAll fold_left]. rewrite run_bind, upsert_run.
  pose proof (upsertedAt_length app s) as Hl. unfold upsertedAt in *.
  apply lookup_lt_is_Some in Hv as [a Ha]. rewrite Ha in *.
  apply IH. now rewrite Hl.
Qed.

Lemma no_invalid apps E :
  existsb invalid apps = false ->
  detachRequests apps = [] /\ pruned E apps = Some <$> apps.
Proof.
  unfold detachRequests, pruned.
  induction apps as [|c apps IH]; cbn; [auto|].
  intros H. apply orb_false_iff in H as [Hc H]. rewrite Hc. cbn.
  destruct (IH H) as [-> ->]. auto.
Qed.

Lemma requested_nil apps s : detachRequests apps = [] -> requested apps s = s.
Proof.
  intros H. unfold requested. rewrite H, app_nil_r. now destruct s.
Qed.

Lemma load_run E exactly s apps :
  readConfigFile E = Ok apps ->
  let s0 := requested apps (cleared exactly s) in
  let sel := selected E exactly apps s in
  let hs := snd (builds E (uri s) sel) in
  let s1 := allocated hs s0 in
  let cs := map config hs in
  let s2 := with_events (events s1 ++ [Write cs]) s1 in
  loadFromConfigurations E exactly s =
  match fst (builds E (uri s) sel) with
  | Err t => (Err t, s1)
  | Ok _ =>
      match writeConfigApplication E cs with
      | Some t => (Err t, s2)
      | None => (Ok tt, upsertAll (seq (length (heap s)) (length hs)) s2)
      end
  end.
Proof.
  intros Hread s0 sel hs s1 cs s2.
  unfold loadFromConfigurations. rewrite run_bind. unfold await at 1.
  rewrite Hread, run_bind.
  assert ((if exactly then modify (with_cache []) else mret tt) s
          = (Ok tt, cleared exactly s)) as -> by (now destruct exactly).
  rewrite run_bind.
  assert ((if existsb invalid apps
           then modify (fun s => with_events (events s ++ detachRequests apps) s);;
                mret (pruned E apps)
           else mret (Some <$> apps)) (cleared exactly s)
          = (Ok (pruned E apps), s0)) as ->.
  { subst s0. destruct (existsb invalid apps) eqn:Hinv; [reflexivity|].
    destruct (no_invalid apps E Hinv) as [Hd ->].
    now rewrite run_ret, requested_nil. }
  run. rewrite initializeAll_run.
  assert (uri s0 = uri s) as -> by (subst s0; now destruct exactly).
  assert (selection s0 (pruned E apps) = sel) as -> by reflexivity.
  assert (length (heap s0) = length (heap s)) as Hlen
    by (subst s0; now destruct exactly).
  assert (heap s0 = heap s) as Hheap by (subst s0; now destruct exactly).
  fold hs. fold s1.
  destruct (fst (builds E (uri s) sel)) as [[]|t] eqn:Hb; [|reflexivity].
  destruct (builds_length E (uri s) sel) as [_ Hl]. specialize (Hl _ Hb).
  fold hs in Hl. rewrite Hlen, <- Hl.
  rewrite run_bind, (configsOf_run _ hs).
  2:{ subst s1. unfold allocated. cbn [heap with_events with_heap].
      rewrite Hheap. apply seq_lookup_app. }
  fold cs. run. fold s2.
  destruct (writeConfigApplication E cs) as [t|]; [reflexivity|].
  run. unfold setAppsToContainer. run.
  rewrite forEach_upsert_run; [reflexivity|].
  subst s2 s1. unfold allocated. cbn [heap with_events with_heap].
  rewrite Hheap, length_app. apply Forall_forall. intros r Hr.
  apply list_elem_of_In, in_seq in Hr. lia.
Qed.

(** * Properties *)

Lemma append_empty_r (s : string) : s +:+ "" = s.
Proof.
  induction s as [|a s IH]; [reflexivity|].
  change (String a (s +:+ "") = String a s). now rewrite IH.
Qed.

(** ** Rendering of errors *)

(** C9: the text of an ApplicationError is determined by its [msg] and
    [code].  When [code] is present (a non-empty string, which is what the
    truthiness test of the source accepts) and registered, the text is the
    code's message, followed by the [msg] in parentheses when [msg] is not
    empty; otherwise, when [msg] is itself a registered code, the text is the
    message of [msg]; otherwise it is [msg] unchanged. *)
Theorem toString_rendering (existsCode : string -> bool)
    (getMessage : string -> string) (m : string) (c : option string) :
  let e := {| msg := m; code := c |} in
  let registered k := c = Some k /\ k <> "" /\ existsCode k = true in
  (forall k, registered k -> m <> "" ->
     toString existsCode getMessage e = getMessage k +:+ " (" +:+ m +:+ ")") /\
  (forall k, registered k -> m = "" ->
     toString existsCode getMessage e = getMessage k) /\
  ((forall k, ~ registered k) -> existsCode m = true ->
     toString existsCode getMessage e = getMessage m) /\
  ((forall k, ~ registered k) -> existsCode m = false ->
     toString existsCode getMessage e = m).
Proof.
  cbv zeta. unfold toString, truthy. cbn [msg code].
  repeat split.
  - intros k (-> & Hk & Hr) Hm. apply String.eqb_neq in Hk, Hm.
    now rewrite Hk, Hr, Hm.
  - intros k (-> & Hk & Hr) ->. apply String.eqb_neq in Hk.
    rewrite Hk, Hr. cbn. apply append_empty_r.
  - intros Hn Hm. rewrite Hm. destruct c as [k|]; [|reflexivity].
    destruct (String.eqb_spec k ""); cbn; [reflexivity|].
    destruct (existsCode k) eqn:Hr; [|reflexivity].
    exfalso. now apply (Hn k).
  - intros Hn Hm. rewrite Hm. destruct c as [k|]; [|reflexivity].
    destruct (String.eqb_spec k ""); cbn; [reflexivity|].
    destruct (existsCode k) eqn:Hr; [|reflexivity].
    exfalso. now apply (Hn k).
Qed.

(** A code that is the empty string counts as absent, whatever the table
    says about it. *)
Lemma toString_empty_code existsCode getMessage m :
  toString existsCode getMessage {| msg := m; code := Some "" |}
  = toString existsCode getMessage {| msg := m; code := None |}.
Proof. reflexivity. Qed.

Lemma findClassModule_registered ty :
  registeredKind ty ->
  exists App, findClassModule ty = Ok App /\ ty = Some (AppTypes_value App).
Proof.
  intros [->| ->]; [exists TOMCAT | exists SPRING_BOOT]; split; reflexivity.
Qed.

Lemma findClassModule_unregistered ty :
  ~ registeredKind ty ->
  findClassModule ty = Err (AppError (newError ErrorCodes.NoValidAppType)).
Proof.
  unfold registeredKind, findClassModule. intros Hn.
  destruct ty as [t|]; [|reflexivity].
  destruct (String.eqb_spec t "TOMCAT") as [->|]; [tauto|].
  destruct (String.eqb_spec t "SPRING_BOOT") as [->|]; [tauto|reflexivity].
Qed.

(** C7: [createApplication] fails with NotFoundWorkspace while no workspace
    location is set; with a location set it fails with NoValidAppType for a
    kind without a registered class; otherwise it returns a newly allocated
    handle bound to the location and to the id supplied, or to
    "App" followed by the current time when none is supplied.  In all three
    cases the cache is what it was, and the new handle is not in it. *)
Theorem createApplication_outcomes E ty i s res s' :
  wf s ->
  createApplication E ty i s = (res, s') ->
  _cache s' = _cache s /\ uri s' = uri s /\
  (uri s = None ->
     res = Err (AppError (newError ErrorCodes.NotFoundWorkspace)) /\ s' = s) /\
  (forall u, uri s = Some u -> ~ registeredKind ty ->
     res = Err (AppError (newError ErrorCodes.NoValidAppType)) /\ s' = s) /\
  (forall u, uri s = Some u -> registeredKind ty ->
     exists r h,
       res = Ok r /\ (r ∉ _cache s) /\ heap s !! r = None /\
       heap s' = heap s ++ [h] /\ heap s' !! r = Some h /\
       h_uri h = u /\ ty = Some (AppTypes_value (h_type h)) /\
       (forall j, i = Some j -> j <> "" -> getId h = j) /\
       (i = None ->
          getId h = "App" +:+ NilZero.string_of_uint (N.to_uint (dateNow E)))).
Proof.
  intros Hwf. rewrite createApplication_run.
  destruct (uri s) as [u|] eqn:Hu.
  - destruct (findClassModule ty) as [App|t] eqn:Hc; intros [= <- <-];
      refine (conj eq_refl (conj Hu (conj _ (conj _ _)))); try discriminate.
    + intros u' _ Hn. apply findClassModule_unregistered in Hn. congruence.
    + intros u' [= <-] Hr.
      destruct (findClassModule_registered _ Hr) as (App' & Hc' & Hty).
      assert (App' = App) as -> by congruence.
      exists (length (heap s)), (construct E App (idOrGenerated E i) u).
      split; [reflexivity|]. split.
      { intros Hin. unfold wf in Hwf. rewrite Forall_forall in Hwf.
        apply Hwf in Hin. lia. }
      split; [now apply lookup_ge_None|]. split; [reflexivity|].
      split; [cbn; now apply list_lookup_middle|].
      split; [reflexivity|]. split; [exact Hty|]. split.
      * intros j -> Hj. cbn. unfold truthy.
        apply String.eqb_neq in Hj. now rewrite Hj.
      * now intros ->.
    + intros u' _ Hn. apply findClassModule_unregistered in Hn.
      split; [congruence|reflexivity].
    + intros u' _ Hr.
      destruct (findClassModule_registered _ Hr) as (App' & Hc' & _).
      congruence.
  - intros [= <- <-].
    refine (conj eq_refl (conj Hu (conj _ (conj _ _)))); try discriminate.
    auto.
Qed.

(** ** Failure of the read *)

Lemma load_read_failure_run E exactly s t :
  readConfigFile E = Err t ->
  loadFromConfigurations E exactly s = (Err t, s).
Proof.
  intros H. unfold loadFromConfigurations, await. now rewrite run_bind, H.
Qed.

(** C10: when reading the configuration file fails, [loadFromConfigurations]
    fails with the same error and the state, the cache included, is what it
    was, whether [exactly] is set or not. *)
Theorem load_read_failure E exactly s t :
  readConfigFile E = Err t ->
  loadFromConfigurations E exactly s = (Err t, s).
Proof. apply load_read_failure_run. Qed.

(** ** The property merge inside [_initializeApplication] *)

(** C1: the handle [_initializeApplication] builds for a record carries the
    merge of the kind's default properties with the record's: the merged
    list runs over the defaults and, for each default [p], holds the first
    persisted property with [p]'s key when some persisted property with that
    key is changeable, and [p] itself otherwise.  When the persisted keys are
    distinct, the property kept in the first case is the changeable one. *)
Theorem initializeApplication_merges E c s u App :
  uri s = Some u ->
  classOf c = Ok App ->
  exists h,
    heap (snd (_initializeApplication E c s)) !! length (heap s) = Some h /\
    h_type h = App /\ id (config h) = id c /\ appPath (config h) = appPath c /\
    properties (config h) = mergeProperties (defaultProperties E App) (properties c) /\
    Forall2 (keptFor (properties c)) (defaultProperties E App) (properties (config h)) /\
    (NoDup (map key (properties c)) ->
     Forall2 (fun p m => hasChangeable (key p) (properties c) ->
                         In m (properties c) /\ key m = key p /\ changeable m = true)
       (defaultProperties E App) (properties (config h))).
Proof.
  intros Hu Hc. rewrite initializeApplication_run, Hu, Hc.
  exists (bound E u App c). cbn [snd heap with_events with_heap].
  rewrite list_lookup_middle by reflexivity.
  do 5 (split; [reflexivity|]). split; [apply mergeProperties_keeps|].
  intros Hnd. eapply Forall2_impl; [apply mergeProperties_keeps|].
  cbn. intros p m [Hkept _] Hch. specialize (Hkept Hch).
  pose proof (firstWithKey_unique_changeable _ _ _ Hnd Hch Hkept) as Hm.
  destruct Hkept as (before & after & Hprev & Hk & _).
  split; [|auto]. rewrite Hprev. apply in_or_app. right. now left.
Qed.

(** What a load that goes through writes back: the selected records, each
    with its merged properties. *)
Lemma load_writes_merged E exactly s apps :
  readConfigFile E = Ok apps ->
  fst (loadFromConfigurations E exactly s) = Ok tt ->
  exists cs before,
    events (snd (loadFromConfigurations E exactly s)) = before ++ [Write cs] /\
    Forall2 (fun c w => exists App, classOf c = Ok App /\ w = merged E App c)
      (selected E exactly apps s) cs.
Proof.
  intros Hread. rewrite (load_run E exactly s apps Hread).
  set (sel := selected E exactly apps s).
  destruct (fst (builds E (uri s) sel)) as [[]|t] eqn:Hb; [|discriminate].
  destruct (writeConfigApplication E _) as [t|]; [discriminate|]. intros _.
  cbn [snd]. rewrite upsertAll_events. cbn [events with_events].
  eexists _, _. split; [reflexivity|].
  clear -Hb. revert Hb. generalize (uri s) as u. intros u.
  induction sel as [|c sel IH]; cbn; [constructor|].
  destruct u as [u'|]; cbn; [|discriminate].
  destruct (classOf c) as [App|t] eqn:Hc; cbn; [|discriminate].
  destruct (init E _); cbn; [discriminate|].
  destruct (builds E (Some u') sel) as [r hs]. cbn in *.
  intros Hr. constructor; [eauto|auto].
Qed.

(** ** What the stages of a load leave untouched *)

Lemma omap_Forall_ext {A B} (f g : A -> option B) (l : list A) :
  Forall (fun x => f x = g x) l -> omap f l = omap g l.
Proof.
  induction 1 as [|x l Hx _ IH]; cbn; [reflexivity|]. now rewrite Hx, IH.
Qed.

Lemma cached_ext s s' i :
  cachedIds s' = cachedIds s -> cached s' i = cached s i.
Proof.
  intros H. destruct (cached s i) eqn:Hc.
  - apply cached_cachedIds. rewrite H. now apply cached_cachedIds.
  - apply cached_false. rewrite H. now apply cached_false.
Qed.

Lemma selection_ext s s' l :
  cachedIds s' = cachedIds s -> selection s' l = selection s l.
Proof.
  intros H. unfold selection. apply List.filter_ext.
  intros c. now rewrite (cached_ext s s').
Qed.

Lemma idAt_allocated hs s r :
  r < length (heap s) -> idAt (allocated hs s) r = idAt s r.
Proof.
  intros Hr. unfold idAt, allocated. cbn [heap with_events with_heap].
  now rewrite lookup_app_l.
Qed.

Lemma cachedIds_allocated hs s : wf s -> cachedIds (allocated hs s) = cachedIds s.
Proof.
  intros Hwf. rewrite !cachedIds_idAt.
  change (_cache (allocated hs s)) with (_cache s).
  apply omap_Forall_ext. eapply Forall_impl; [exact Hwf|].
  intros r Hr. now apply idAt_allocated.
Qed.

Lemma wf_allocated hs s : wf s -> wf (allocated hs s).
Proof.
  unfold wf, allocated. cbn [heap _cache with_events with_heap].
  intros H. eapply Forall_impl; [exact H|].
  intros r Hr. cbn in *. rewrite length_app. lia.
Qed.

Lemma wf_cleared exactly s : wf s -> wf (cleared exactly s).
Proof. destruct exactly; [intros _; constructor | auto]. Qed.

Lemma wf_with_events e s : wf (with_events e s) <-> wf s.
Proof. reflexivity. Qed.

(** Every selected record is one of the records read, valid or still
    awaiting its detach, and its id is not cached. *)
Lemma selection_In s E apps c :
  In c (selection s (pruned E apps)) <->
  In c apps /\ (invalid c && detachSettled E (id c) = false) /\ cached s (id c) = false.
Proof.
  unfold selection, pruned. rewrite filter_In, negb_true_iff.
  rewrite <- list_elem_of_In, list_elem_of_omap.
  split.
  - intros [(o & Ho & ->) Hc]. apply list_elem_of_In, in_map_iff in Ho.
    destruct Ho as (c' & Hc' & Hin).
    destruct (invalid c' && detachSettled E (id c')) eqn:Hp; [discriminate|].
    injection Hc' as ->. auto.
  - intros (Hin & Hp & Hc). split; [|assumption].
    exists (Some c). split; [|reflexivity].
    apply list_elem_of_In, in_map_iff. exists c. rewrite Hp. auto.
Qed.

(** The handles the loop allocates are the bound forms of selected records. *)
Lemma builds_bound E u cs h :
  In h (snd (builds E u cs)) ->
  exists u' c App,
    u = Some u' /\ In c cs /\ classOf c = Ok App /\ h = bound E u' App c.
Proof.
  induction cs as [|c cs IH]; cbn; [tauto|].
  destruct u as [u'|]; cbn; [|tauto].
  destruct (classOf c) as [App|t] eqn:Hc; cbn; [|tauto].
  destruct (init E _) eqn:Hi; cbn.
  - intros [<-|[]]. exists u', c, App. auto.
  - destruct (builds E (Some u') cs) as [r hs]. cbn in *.
    intros [<-|Hin].
    + exists u', c, App. auto.
    + destruct (IH Hin) as (u'' & c' & App' & Hu & Hin' & Hc' & ->).
      exists u'', c', App'. auto.
Qed.

(** When the loop completes, there is one handle per selected record. *)
Lemma builds_complete E u cs x :
  fst (builds E u cs) = Ok x ->
  Forall2 (fun c h => getId h = id c) cs (snd (builds E u cs)).
Proof.
  induction cs as [|c cs IH]; cbn; [constructor|].
  destruct u as [u'|]; cbn; [|discriminate].
  destruct (classOf c) as [App|t]; cbn; [|discriminate].
  destruct (init E _); cbn; [discriminate|].
  destruct (builds E (Some u') cs) as [r hs]. cbn in *.
  intros Hr. constructor; [reflexivity|auto].
Qed.

(** An upsert of fresh handles into a cache of fresh handles: the cache
    stays among the fresh references and the configs of the fresh objects
    stay within what they were drawn from. *)
Lemma upsertedAt_fresh (Q : ConfigApplication -> Prop) n app s :
  n <= app ->
  (forall r, r ∈ _cache s -> n <= r) ->
  (forall r h, n <= r -> heap s !! r = Some h -> Q (config h)) ->
  (forall r, r ∈ _cache (upsertedAt app s) -> n <= r) /\
  (forall r h, n <= r -> heap (upsertedAt app s) !! r = Some h -> Q (config h)).
Proof.
  intros Happ Hcache Hheap. unfold upsertedAt.
  destruct (heap s !! app) as [a|] eqn:Ha; [|auto].
  unfold upserted. destruct (cached s (getId a)).
  - destruct (find _ _) as [temp|] eqn:Hf; [|auto].
    split; [exact Hcache|]. cbn [heap with_heap]. intros r h Hr.
    rewrite list_lookup_alter. destruct (decide (temp = r)) as [->|]; [|eauto].
    destruct (heap s !! r) as [h0|]; [|discriminate].
    intros [= <-]. cbn. eauto.
  - split; [|exact Hheap]. cbn [_cache with_cache]. intros r Hr.
    apply elem_of_app in Hr as [Hr|Hr]; [auto|].
    apply list_elem_of_singleton in Hr. now subst.
Qed.

Lemma upsertAll_fresh (Q : ConfigApplication -> Prop) n apps s :
  Forall (fun r => n <= r) apps ->
  (forall r, r ∈ _cache s -> n <= r) ->
  (forall r h, n <= r -> heap s !! r = Some h -> Q (config h)) ->
  (forall r, r ∈ _cache (upsertAll apps s) -> n <= r) /\
  (forall r h, n <= r -> heap (upsertAll apps s) !! r = Some h -> Q (config h)).
Proof.
  revert s. induction apps as [|app apps IH]; intros s Happs Hcache Hheap.
  - auto.
  - apply Forall_cons in Happs as [Happ Happs]. cbn [upsertAll fold_left].
    destruct (upsertedAt_fresh Q n app s Happ Hcache Hheap) as [H1 H2].
    now apply IH.
Qed.

Lemma Forall_seq_ge n k : Forall (fun r => n <= r) (seq n k).
Proof. apply Forall_forall. intros r Hr. apply list_elem_of_In, in_seq in Hr. lia. Qed.

(** ** Exactly mode *)

(** C6: [loadFromConfigurations(true)] empties the cache before it
    reconciles.  Once the file has been read, every entry of the cache after
    the call is an object allocated by this call and bound to a record of the
    list just read; hence every cached id is the id of such a record, and an
    id cached before but absent from the list is no longer cached. *)
Theorem load_exactly_replaces E s apps :
  readConfigFile E = Ok apps ->
  let s' := snd (loadFromConfigurations E true s) in
  (forall r, r ∈ _cache s' ->
     length (heap s) <= r /\
     exists h, heap s' !! r = Some h /\ boundTo E apps (config h)) /\
  (forall i, i ∈ cachedIds s' -> exists c, In c apps /\ id c = i) /\
  (forall i, i ∈ cachedIds s -> (forall c, In c apps -> id c <> i) ->
     i ∉ cachedIds s').
Proof.
  intros Hread s'.
  assert (forall r, r ∈ _cache s' ->
            length (heap s) <= r /\
            exists h, heap s' !! r = Some h /\ boundTo E apps (config h)) as H1.
  { subst s'. rewrite (load_run E true s apps Hread).
    set (sel := selected E true apps s).
    set (hs := snd (builds E (uri s) sel)).
    destruct (fst (builds E (uri s) sel)) as [[]|t];
      [|cbn; intros r Hr; now apply elem_of_nil in Hr].
    destruct (writeConfigApplication E _) as [t|];
      [cbn; intros r Hr; now apply elem_of_nil in Hr|].
    cbn [snd].
    set (s2 := with_events _ _).
    destruct (upsertAll_fresh (boundTo E apps) (length (heap s))
                (seq (length (heap s)) (length hs)) s2) as [Hc Hh].
    - apply Forall_seq_ge.
    - cbn. intros r Hr. now apply elem_of_nil in Hr.
    - cbn [s2 heap with_events allocated with_heap requested cleared with_cache].
      intros r h Hr Hl. rewrite lookup_app_r in Hl by exact Hr.
      apply list_elem_of_lookup_2, list_elem_of_In, builds_bound in Hl.
      destruct Hl as (u' & c & App & _ & Hin & Hc' & ->).
      apply selection_In in Hin as (Hin & _). exists c, App. auto.
    - intros r Hr. split; [auto|].
      assert (wf (upsertAll (seq (length (heap s)) (length hs)) s2)) as Hwf
        by (apply upsertAll_wf; constructor).
      unfold wf in Hwf. rewrite Forall_forall in Hwf.
      destruct (lookup_lt_is_Some_2 _ _ (Hwf _ Hr)) as [h Hl].
      exists h. split; [exact Hl|]. eapply Hh; [|exact Hl]. auto. }
  assert (forall i, i ∈ cachedIds s' -> exists c, In c apps /\ id c = i) as H2.
  { intros i Hi. rewrite cachedIds_idAt in Hi.
    apply list_elem_of_omap in Hi as (r & Hr & Hid).
    destruct (H1 r Hr) as (_ & h & Hl & c & App & Hin & _ & Hcfg).
    unfold idAt in Hid. rewrite Hl in Hid. injection Hid as <-.
    exists c. split; [exact Hin|]. unfold getId. now rewrite Hcfg. }
  split; [exact H1|]. split; [exact H2|].
  intros i _ Habs Hi. destruct (H2 i Hi) as (c & Hin & Hc). now apply (Habs c).
Qed.

(** A load first requests the detaches, then initialises objects it has
    allocated itself and, at most once, writes back. *)
Lemma load_events E exactly s apps :
  readConfigFile E = Ok apps ->
  exists rest,
    events (snd (loadFromConfigurations E exactly s))
    = events s ++ detachRequests apps ++ rest /\
    Forall (fromLoad (length (heap s))) rest.
Proof.
  intros Hread. rewrite (load_run E exactly s apps Hread).
  set (hs := snd (builds E (uri s) _)).
  assert (events (cleared exactly s) = events s) as He by now destruct exactly.
  assert (length (heap (cleared exactly s)) = length (heap s)) as Hl
    by now destruct exactly.
  assert (Forall (fromLoad (length (heap s)))
            (map Init (seq (length (heap s)) (length hs)))) as Hinit.
  { apply Forall_forall. intros e He'.
    apply list_elem_of_In, in_map_iff in He' as (r & <- & Hr).
    apply in_seq in Hr. cbn. lia. }
  destruct (fst (builds E (uri s) _)) as [[]|t].
  - exists (map Init (seq (length (heap s)) (length hs)) ++ [Write (map config hs)]).
    split.
    + destruct (writeConfigApplication E _); cbn [snd];
        rewrite ?upsertAll_events; cbn; rewrite He, Hl, <- !app_assoc; reflexivity.
    + apply Forall_app. split; [exact Hinit|]. repeat constructor.
  - exists (map Init (seq (length (heap s)) (length hs))). split; [|exact Hinit].
    cbn. now rewrite He, Hl, <- !app_assoc.
Qed.

Lemma builds_prefix E u pre rest :
  Forall (succeeds E u) pre ->
  builds E (Some u) (pre ++ rest) =
  (fst (builds E (Some u) rest),
   omap (boundOf E u) pre ++ snd (builds E (Some u) rest)) /\
  length (omap (boundOf E u) pre) = length pre.
Proof.
  induction 1 as [|c pre (h & Hb & Hi) _ [IH1 IH2]].
  - cbn. now destruct (builds E (Some u) rest).
  - cbn [app builds omap list_omap]. rewrite Hb, IH1. cbn [length].
    split; [|now rewrite IH2].
    unfold boundOf in Hb. destruct (classOf c) as [App|t]; [|discriminate].
    injection Hb as <-. now rewrite Hi.
Qed.

(** C4, as the code has it: a failure of [init] on a selected record ends
    the load there.  The failure is surfaced to the caller; the records
    before it were constructed and initialised, but no record after it is;
    nothing is written back, and the cache receives none of the handles of
    this load (it is the cache before the call, emptied in exactly mode). *)
Theorem load_init_failure_aborts E exactly s apps u pre c post App t :
  readConfigFile E = Ok apps ->
  uri s = Some u ->
  selected E exactly apps s = pre ++ c :: post ->
  Forall (succeeds E u) pre ->
  classOf c = Ok App ->
  init E (bound E u App c) = Some t ->
  exists s',
    loadFromConfigurations E exactly s = (Err t, s') /\
    _cache s' = (if exactly then [] else _cache s) /\
    heap s' = heap s ++ omap (boundOf E u) pre ++ [bound E u App c] /\
    events s' = events s ++ detachRequests apps
                ++ map Init (seq (length (heap s)) (S (length pre))).
Proof.
  intros Hread Hu Hsel Hpre Hc Hi.
  rewrite (load_run E exactly s apps Hread), Hsel, Hu.
  destruct (builds_prefix E u pre (c :: post) Hpre) as [-> Hlen].
  cbn [builds fst snd]. rewrite Hc, Hi. cbn [fst snd].
  eexists. split; [reflexivity|].
  unfold allocated, requested. cbn [_cache heap events with_events with_heap].
  rewrite length_app, Hlen, Nat.add_1_r.
  destruct exactly; cbn; rewrite <- ?app_assoc; auto.
Qed.

(** ** Pruning *)

(** In merge mode a load removes nothing from the cache: an id cached
    before is cached after. *)
Lemma load_merge_keeps E s i :
  wf s -> i ∈ cachedIds s ->
  i ∈ cachedIds (snd (loadFromConfigurations E false s)).
Proof.
  intros Hwf Hi.
  destruct (readConfigFile E) as [apps|t] eqn:Hread;
    [|now rewrite (load_read_failure_run E false s t Hread)].
  rewrite (load_run E false s apps Hread).
  set (hs := snd (builds E (uri s) _)).
  assert (i ∈ cachedIds (allocated hs (requested apps (cleared false s)))) as Hi'
    by (rewrite cachedIds_allocated; assumption).
  destruct (fst (builds E (uri s) _)) as [[]|t]; [|exact Hi'].
  destruct (writeConfigApplication E _) as [t|]; cbn [snd]; [exact Hi'|].
  apply upsertAll_cachedIds. left. exact Hi'.
Qed.

(** C3, as the code has it: for every record read with an empty [appPath]
    a detach is requested by its id.  Once that request has settled before
    the selection, the record is not among those the load goes on to
    construct; and if, further, its id was not cached when the load began
    (or the load is in exactly mode) and no valid record shares the id, the
    id is not cached afterwards.  A handle with that id that was cached
    before a load in merge mode is still cached after it. *)
Theorem load_prunes E exactly s apps c :
  readConfigFile E = Ok apps ->
  In c apps ->
  appPath c = "" ->
  wf s ->
  let s' := snd (loadFromConfigurations E exactly s) in
  (exists before after,
     events s' = events s ++ before ++ Detach (id c) :: after) /\
  (detachSettled E (id c) = true ->
     ~ In c (selected E exactly apps s) /\
     (exactly = true \/ id c ∉ cachedIds s ->
      (forall c', In c' apps -> id c' = id c -> appPath c' = "") ->
      id c ∉ cachedIds s')) /\
  (exactly = false -> id c ∈ cachedIds s -> id c ∈ cachedIds s').
Proof.
  intros Hread Hin Hpath Hwf s'.
  assert (forall c', appPath c' = "" -> invalid c' = true) as Hinv
    by (intros c' Hc'; unfold invalid; now rewrite Hc').
  split; [|split].
  - destruct (load_events E exactly s apps Hread) as (rest & Hev & _).
    assert (In (Detach (id c)) (detachRequests apps)) as Hd.
    { unfold detachRequests. apply in_map_iff. exists c. split; [reflexivity|].
      apply filter_In. auto. }
    apply in_split in Hd as (l1 & l2 & Hd).
    exists l1, (l2 ++ rest). subst s'. rewrite Hev, Hd, <- !app_assoc. reflexivity.
  - intros Hsettled. split.
    + unfold selected. rewrite selection_In. intros (_ & Hp & _).
      now rewrite (Hinv c Hpath), Hsettled in Hp.
    + intros Hfree Hall.
      assert (id c ∉ cachedIds (cleared exactly s)) as Hfree'.
      { destruct Hfree as [->|Hfree]; [apply not_elem_of_nil|].
        destruct exactly; [apply not_elem_of_nil|exact Hfree]. }
      assert (forall h, In h (snd (builds E (uri s) (selected E exactly apps s))) ->
                getId h <> id c) as Hnew.
      { intros h Hh Hid.
        apply builds_bound in Hh as (u' & c' & App & _ & Hsel & _ & ->).
        apply selection_In in Hsel as (Hin' & Hp & _). cbn in Hid.
        rewrite (Hinv c' (Hall c' Hin' Hid)), Hid, Hsettled in Hp. discriminate. }
      pose proof (wf_cleared exactly s Hwf) as Hwf0.
      subst s'. rewrite (load_run E exactly s apps Hread).
      set (hs := snd (builds E (uri s) _)) in *.
      assert (cachedIds (allocated hs (requested apps (cleared exactly s)))
              = cachedIds (cleared exactly s)) as Hids
        by (now rewrite cachedIds_allocated).
      destruct (fst (builds E (uri s) _)) as [[]|t]; [|cbn [snd]; now rewrite Hids].
      destruct (writeConfigApplication E _) as [t|]; cbn [snd].
      { change (cachedIds (with_events ?e ?x)) with (cachedIds x). now rewrite Hids. }
      rewrite upsertAll_cachedIds.
      change (cachedIds (with_events ?e ?x)) with (cachedIds x). rewrite Hids.
      intros [Hold|(app & Happ & Hid)]; [contradiction|].
      apply in_seq in Happ.
      unfold idAt in Hid. cbn [heap with_events allocated with_heap requested] in Hid.
      assert (heap (cleared exactly s) = heap s) as Hh by now destruct exactly.
      rewrite Hh, lookup_app_r in Hid by lia.
      destruct (hs !! (app - length (heap s))) as [h|] eqn:Hl; [|discriminate].
      injection Hid as Hid.
      apply list_elem_of_lookup_2, list_elem_of_In in Hl. now apply (Hnew h).
  - intros -> Hi. subst s'. now apply load_merge_keeps.
Qed.

(** ** The upsert *)

Lemma find_split {A} (f : A -> bool) (l : list A) (x : A) :
  find f l = Some x ->
  exists before after,
    l = before ++ x :: after /\ f x = true /\ Forall (fun y => f y = false) before.
Proof.
  induction l as [|y l IH]; cbn [find]; [discriminate|].
  destruct (f y) eqn:Hy.
  - intros [= <-]. exists [], l. auto.
  - intros Hf. destruct (IH Hf) as (before & after & -> & Hx & Hb).
    exists (y :: before), after. auto.
Qed.

Lemma find_firstCached s i temp :
  find (hasId s i) (_cache s) = Some temp -> firstCached s i temp.
Proof.
  intros Hf. destruct (find_split _ _ _ Hf) as (before & after & Hc & Ht & Hb).
  exists before, after. split; [exact Hc|]. split; [now apply hasId_idAt|].
  eapply Forall_impl; [exact Hb|]. cbn. intros r Hr Hid.
  apply hasId_idAt in Hid. congruence.
Qed.

Lemma upsertAll_app l1 l2 s : upsertAll (l1 ++ l2) s = upsertAll l2 (upsertAll l1 s).
Proof. apply fold_left_app. Qed.

(** Whatever is passed, the call stops at a prefix of the list: at its end,
    or at a reference that points nowhere. *)
Lemma forEach_upsert_prefix apps s :
  exists k, snd (forEach upsert apps s) = upsertAll (take k apps) s.
Proof.
  revert s. induction apps as [|app apps IH]; intros s.
  - exists 0. reflexivity.
  - cbn [forEach]. rewrite run_bind, upsert_run.
    destruct (heap s !! app) as [a|] eqn:Ha.
    + destruct (IH (upserted a app s)) as [k Hk]. exists (S k).
      cbn [take upsertAll fold_left]. unfold upsertedAt. now rewrite Ha.
    + exists 0. reflexivity.
Qed.

(** C5: in [setAppsToContainer], a handle whose id is already in the cache
    when its turn comes only has its config copied onto the first cached
    entry with that id: the cache holds the same references in the same
    places, no other object changes and no call leaves the registry, [init]
    in particular.  A handle whose id is not in the cache is appended to it
    as it is. *)
Theorem setAppsToContainer_upserts apps s k app :
  Forall (fun r => r < length (heap s)) apps ->
  apps !! k = Some app ->
  let before := upsertAll (take k apps) s in
  let after := upsertAll (take (S k) apps) s in
  let final := upsertAll (drop (S k) apps) after in
  setAppsToContainer apps s = (Ok (_cache final), final) /\
  events final = events s /\
  exists a,
    heap before !! app = Some a /\
    (getId a ∈ cachedIds before ->
       exists temp h,
         firstCached before (getId a) temp /\
         heap before !! temp = Some h /\
         _cache after = _cache before /\
         heap after !! temp = Some (setConfig (config a) h) /\
         (forall r, r <> temp -> heap after !! r = heap before !! r)) /\
    (getId a ∉ cachedIds before ->
       _cache after = _cache before ++ [app] /\ heap after = heap before).
Proof.
  intros Hvalid Hk before after final.
  assert (after = upsertedAt app before) as Hafter.
  { subst after before. rewrite (take_S_r _ _ _ Hk), upsertAll_app. reflexivity. }
  assert (final = upsertAll apps s) as Hfinal.
  { subst final after. rewrite <- upsertAll_app, take_drop. reflexivity. }
  split; [|split].
  - unfold setAppsToContainer. rewrite run_bind, forEach_upsert_run by exact Hvalid.
    rewrite Hfinal. reflexivity.
  - rewrite Hfinal. apply upsertAll_events.
  - assert (app < length (heap before)) as Hlt.
    { subst before. rewrite upsertAll_length.
      rewrite Forall_forall in Hvalid. apply Hvalid.
      eapply list_elem_of_lookup_2, Hk. }
    apply lookup_lt_is_Some in Hlt as [a Ha]. exists a. split; [exact Ha|].
    rewrite Hafter. unfold upsertedAt. rewrite Ha. unfold upserted. split.
    + intros Hin. apply cached_cachedIds in Hin. rewrite Hin.
      destruct (find _ _) as [temp|] eqn:Hf.
      2:{ unfold cached in Hin. apply existsb_exists in Hin as (r & Hr & Hid).
          now rewrite (find_none _ _ Hf r Hr) in Hid. }
      pose proof (find_firstCached _ _ _ Hf) as Hfirst.
      destruct Hfirst as (b & a' & Hc & Hid & Hb).
      unfold idAt in Hid. destruct (heap before !! temp) as [h|] eqn:Hh; [|discriminate].
      exists temp, h. split; [|split; [exact Hh|split; [reflexivity|split]]].
      * exists b, a'. unfold idAt. rewrite Hh. auto.
      * cbn [heap with_heap]. now rewrite list_lookup_alter_eq, Hh.
      * intros r Hr. cbn [heap with_heap]. now apply list_lookup_alter_ne.
    + intros Hnin. apply cached_false in Hnin. rewrite Hnin. auto.
Qed.

Lemma cachedIds_grown hs s :
  wf s -> cachedIds (with_heap (heap s ++ hs) s) = cachedIds s.
Proof. intros Hwf. exact (cachedIds_allocated hs s Hwf). Qed.

Lemma wf_grown hs s : wf s -> wf (with_heap (heap s ++ hs) s).
Proof. intros Hwf. exact (wf_allocated hs s Hwf). Qed.

Lemma load_preserves E exactly s :
  wf s -> NoDup (cachedIds s) ->
  wf (snd (loadFromConfigurations E exactly s)) /\
  NoDup (cachedIds (snd (loadFromConfigurations E exactly s))).
Proof.
  intros Hwf Hnd.
  destruct (readConfigFile E) as [apps|t] eqn:Hread;
    [|now rewrite (load_read_failure_run E exactly s t Hread)].
  rewrite (load_run E exactly s apps Hread).
  set (hs := snd (builds E (uri s) _)).
  pose proof (wf_cleared exactly s Hwf) as Hwf0.
  assert (NoDup (cachedIds (cleared exactly s))) as Hnd0
    by (destruct exactly; [apply NoDup_nil_2 | exact Hnd]).
  assert (wf (allocated hs (requested apps (cleared exactly s)))) as Hwf1
    by now apply wf_allocated.
  assert (NoDup (cachedIds (allocated hs (requested apps (cleared exactly s)))))
    as Hnd1 by now rewrite cachedIds_allocated.
  destruct (fst (builds E (uri s) _)) as [[]|t]; [|auto].
  destruct (writeConfigApplication E _) as [t|]; cbn [snd]; [auto|].
  split; [now apply upsertAll_wf | now apply upsertAll_NoDup].
Qed.

Lemma perform_preserves c s :
  wf s /\ NoDup (cachedIds s) -> wf (perform c s) /\ NoDup (cachedIds (perform c s)).
Proof.
  intros [Hwf Hnd]. destruct c as [u| |E ty i|E exactly|apps|i|]; cbn [perform].
  - split; [exact Hwf | exact Hnd].
  - split; [constructor | apply NoDup_nil_2].
  - rewrite createApplication_run. destruct (uri s); [|auto].
    destruct (findClassModule ty); [|auto]. cbn [snd].
    split; [now apply wf_grown | now rewrite cachedIds_grown].
  - now apply load_preserves.
  - unfold setAppsToContainer. rewrite run_bind.
    destruct (forEach_upsert_prefix apps s) as [k Hk].
    destruct (forEach upsert apps s) as [[[]|t] s'] eqn:Hrun; run;
      cbn [snd] in *; subst s'; split;
      auto using upsertAll_wf, upsertAll_NoDup.
  - split; [exact Hwf | exact Hnd].
  - split; [exact Hwf | exact Hnd].
Qed.

(** C8: from an empty cache, whatever registry operations are called, with
    whatever arguments and whatever the configuration file holds, no two
    cached handles have the same id. *)
Theorem cache_ids_unique s : reachable s -> NoDup (cachedIds s).
Proof.
  intros Hr. enough (wf s /\ NoDup (cachedIds s)) as [_ H] by exact H.
  induction Hr as [s Hs|s c _ IH].
  - unfold wf, cachedIds. rewrite Hs. split; [constructor | apply NoDup_nil_2].
  - now apply perform_preserves.
Qed.

(** ** Loading twice *)

(** After a load that went through, every record that survives the prune
    has its id in the cache, so that a second load selects nothing. *)
Lemma selection_after_load E apps s hs x :
  wf s ->
  fst (builds E (uri s) (selected E false apps s)) = Ok x ->
  hs = snd (builds E (uri s) (selected E false apps s)) ->
  forall s2,
    _cache s2 = _cache s -> heap s2 = heap s ++ hs ->
    selection (upsertAll (seq (length (heap s)) (length hs)) s2) (pruned E apps) = [].
Proof.
  intros Hwf Hb -> s2 Hc2 Hh2.
  set (hs := snd (builds E (uri s) (selected E false apps s))) in *.
  set (s1 := upsertAll _ s2).
  destruct (selection s1 (pruned E apps)) as [|c l] eqn:Hsel; [reflexivity|].
  exfalso.
  assert (In c (selection s1 (pruned E apps))) as Hin by (rewrite Hsel; now left).
  apply selection_In in Hin as (Hin & Hp & Hc).
  apply cached_false in Hc. apply Hc. subst s1. apply upsertAll_cachedIds.
  assert (cachedIds s2 = cachedIds s) as Hids.
  { rewrite !cachedIds_idAt, Hc2. apply omap_Forall_ext.
    eapply Forall_impl; [exact Hwf|]. cbn. intros r Hr.
    unfold idAt. now rewrite Hh2, lookup_app_l. }
  destruct (cached s (id c)) eqn:Hcs.
  - left. rewrite Hids. now apply cached_cachedIds.
  - right.
    assert (In c (selected E false apps s)) as Hs
      by (apply selection_In; auto).
    pose proof (builds_complete _ _ _ _ Hb) as Hall. fold hs in Hall.
    clearbody hs.
    apply list_elem_of_In, list_elem_of_lookup in Hs as [j Hj].
    destruct (Forall2_lookup_l _ _ _ _ _ Hall Hj) as (h & Hh & Hid).
    exists (length (heap s) + j). split.
    + apply in_seq. apply lookup_lt_Some in Hh. lia.
    + unfold idAt. rewrite Hh2, lookup_app_r by lia.
      replace (length (heap s) + j - length (heap s)) with j by lia.
      now rewrite Hh, <- Hid.
Qed.

(** C2: two loads in merge mode against the same configuration file.  The
    second leaves the cache as the first left it: the same references in the
    same order, each object unchanged; no id occurs twice; and the second
    load calls [init] on no object that the first left in the cache. *)
Theorem load_twice E s :
  wf s ->
  NoDup (cachedIds s) ->
  let s1 := snd (loadFromConfigurations E false s) in
  let s2 := snd (loadFromConfigurations E false s1) in
  _cache s2 = _cache s1 /\
  (forall r, r ∈ _cache s1 -> heap s2 !! r = heap s1 !! r) /\
  NoDup (cachedIds s2) /\
  exists evs,
    events s2 = events s1 ++ evs /\
    forall r, r ∈ _cache s1 -> ~ In (Init r) evs.
Proof.
  intros Hwf Hnd s1 s2.
  destruct (load_preserves E false s Hwf Hnd) as [Hwf1 Hnd1]. fold s1 in Hwf1, Hnd1.
  destruct (load_preserves E false s1 Hwf1 Hnd1) as [_ Hnd2]. fold s2 in Hnd2.
  destruct (readConfigFile E) as [apps|t] eqn:Hread.
  2:{ subst s2 s1. rewrite !(load_read_failure_run E false _ t Hread). cbn [snd].
      repeat split; auto. exists []. split; [now rewrite app_nil_r|]. auto. }
  assert (exists evs, events s2 = events s1 ++ evs /\
            forall r, r ∈ _cache s1 -> ~ In (Init r) evs) as Hev.
  { destruct (load_events E false s1 apps Hread) as (rest & He & Hrest).
    fold s2 in He. exists (detachRequests apps ++ rest). split; [exact He|].
    intros r Hr Hin. apply in_app_or in Hin as [Hin|Hin].
    - unfold detachRequests in Hin. apply in_map_iff in Hin as (c & Hc & _).
      discriminate.
    - rewrite List.Forall_forall in Hrest. apply Hrest in Hin. cbn in Hin.
      unfold wf in Hwf1. rewrite Forall_forall in Hwf1. apply Hwf1 in Hr. lia. }
  enough (_cache s2 = _cache s1 /\ exists hs', heap s2 = heap s1 ++ hs') as [Hc [hs' Hh]].
  { split; [exact Hc|]. split; [|auto]. intros r Hr. rewrite Hh.
    unfold wf in Hwf1. rewrite Forall_forall in Hwf1. apply Hwf1 in Hr.
    now apply lookup_app_l. }
  clear Hev Hnd2.
  pose proof (load_run E false s1 apps Hread) as Hrun2. cbv zeta in Hrun2.
  fold s2 in Hrun2.
  pose proof (load_run E false s apps Hread) as Hrun1. cbv zeta in Hrun1.
  set (sel := selected E false apps s) in *.
  set (hs := snd (builds E (uri s) sel)) in *.
  set (A := allocated hs (requested apps (cleared false s))) in *.
  assert (cachedIds A = cachedIds s) as HidsA
    by exact (cachedIds_allocated hs (requested apps s) Hwf).
  destruct (fst (builds E (uri s) sel)) as [[]|t] eqn:Hb.
  - destruct (writeConfigApplication E (map config hs)) as [t|] eqn:Hw.
    + (* the write failed: the second load fails in the same way *)
      assert (s1 = with_events (events A ++ [Write (map config hs)]) A) as Hs1
        by (subst s1; now rewrite Hrun1).
      assert (selected E false apps s1 = sel) as Hsel
        by (apply selection_ext; rewrite Hs1; exact HidsA).
      assert (uri s1 = uri s) as Hu by now rewrite Hs1.
      rewrite Hsel, Hu, Hb in Hrun2. fold hs in Hrun2. rewrite Hw in Hrun2.
      unfold s2. rewrite Hrun2. cbn [snd].
      split; [reflexivity|]. exists hs. reflexivity.
    + (* the first load went through: the second selects nothing *)
      assert (s1 = upsertAll (seq (length (heap s)) (length hs))
                     (with_events (events A ++ [Write (map config hs)]) A)) as Hs1
        by (subst s1; now rewrite Hrun1).
      assert (selected E false apps s1 = []) as Hsel.
      { unfold selected. rewrite Hs1. cbn [cleared].
        eapply (selection_after_load E apps s hs); eauto. }
      rewrite Hsel in Hrun2. cbn [builds fst snd map] in Hrun2.
      unfold s2. rewrite Hrun2.
      destruct (writeConfigApplication E []); cbn [snd];
        (split; [reflexivity|]); exists []; reflexivity.
  - (* the construction failed: the second load fails at the same record *)
    assert (s1 = A) as Hs1 by (subst s1; now rewrite Hrun1).
    assert (selected E false apps s1 = sel) as Hsel
      by (apply selection_ext; rewrite Hs1; exact HidsA).
    assert (uri s1 = uri s) as Hu by now rewrite Hs1.
    rewrite Hsel, Hu, Hb in Hrun2. fold hs in Hrun2.
    unfold s2. rewrite Hrun2. cbn [snd].
    split; [reflexivity|]. exists hs. reflexivity.
Qed.

(** * Concrete runs *)

Import Samples.

(** The two cases of the port: a persisted changeable value survives the
    merge, a persisted fixed one gives way to the default. *)
Example merge_keeps_changeable_port :
  mergeProperties [port 8080 true] [port 9090 true] = [port 9090 true].
Proof. reflexivity. Qed.

Example merge_drops_fixed_port :
  mergeProperties [port 8080 true] [port 9090 false] = [port 8080 true].
Proof. reflexivity. Qed.

Example load_merges_changeable_port :
  map (fun h => properties (config h))
      (heap (snd (loadFromConfigurations (E0 [recA]) false ready)))
  = [[port 9090 true]].
Proof. reflexivity. Qed.

Example load_merges_fixed_port :
  map (fun h => properties (config h))
      (heap (snd (loadFromConfigurations (E0 [recA_fixed]) false ready)))
  = [[port 8080 true]].
Proof. reflexivity. Qed.

Lemma wf_ready : wf ready.
Proof. constructor. Qed.

Lemma wf_withA : wf withA.
Proof. repeat constructor. Qed.

Lemma NoDup_withA : NoDup (cachedIds withA).
Proof. apply NoDup_singleton. Qed.

Lemma initializeApplication_merges_witness :
  exists h,
    heap (snd (_initializeApplication (E0 []) recA ready)) !! length (heap ready)
    = Some h /\
    h_type h = TOMCAT /\ id (config h) = id recA /\
    appPath (config h) = appPath recA /\
    properties (config h)
    = mergeProperties (defaultProperties (E0 []) TOMCAT) (properties recA) /\
    Forall2 (keptFor (properties recA)) (defaultProperties (E0 []) TOMCAT)
      (properties (config h)) /\
    (NoDup (map key (properties recA)) ->
     Forall2 (fun p m => hasChangeable (key p) (properties recA) ->
                         In m (properties recA) /\ key m = key p /\ changeable m = true)
       (defaultProperties (E0 []) TOMCAT) (properties (config h))).
Proof.
  apply (initializeApplication_merges (E0 []) recA ready "file:///ws" TOMCAT);
    reflexivity.
Defined.

Lemma load_twice_witness :
  _cache (snd (loadFromConfigurations (E0 [recA; recB; recA_fixed]) false
                 (snd (loadFromConfigurations (E0 [recA; recB; recA_fixed]) false withA))))
  = _cache (snd (loadFromConfigurations (E0 [recA; recB; recA_fixed]) false withA)).
Proof.
  exact (proj1 (load_twice (E0 [recA; recB; recA_fixed]) withA wf_withA NoDup_withA)).
Defined.

(** C3, as stated, fails: "a" is loaded, then its record loses its path.
    The next load in merge mode requests the detach of "a" and drops the
    record, yet the handle of "a" is still in the cache afterwards. *)
Lemma load_prunes_counterexample :
  cachedIds withA = ["a"] /\
  appPath recA_blank = "" /\
  events (snd (loadFromConfigurations (E0 [recA_blank]) false withA))
  = events withA ++ [Detach "a"; Write []] /\
  cachedIds (snd (loadFromConfigurations (E0 [recA_blank]) false withA)) = ["a"].
Proof. repeat split. Qed.

Lemma load_prunes_witness :
  (exists before after,
     events (snd (loadFromConfigurations (E0 [recA_blank; recB]) false ready))
     = events ready ++ before ++ Detach (id recA_blank) :: after) /\
  (detachSettled (E0 [recA_blank; recB]) (id recA_blank) = true ->
     ~ In recA_blank (selected (E0 [recA_blank; recB]) false [recA_blank; recB] ready) /\
     (false = true \/ id recA_blank ∉ cachedIds ready ->
      (forall c', In c' [recA_blank; recB] -> id c' = id recA_blank -> appPath c' = "") ->
      id recA_blank ∉ cachedIds (snd (loadFromConfigurations (E0 [recA_blank; recB]) false ready)))) /\
  (false = false -> id recA_blank ∈ cachedIds ready ->
   id recA_blank ∈ cachedIds (snd (loadFromConfigurations (E0 [recA_blank; recB]) false ready))).
Proof.
  apply (load_prunes (E0 [recA_blank; recB]) false ready [recA_blank; recB] recA_blank).
  - reflexivity.
  - simpl. auto.
  - reflexivity.
  - exact wf_ready.
Defined.

(** With the detach settled, the path-less record leaves no handle behind
    and the valid one is loaded. *)
Example load_prunes_sample :
  detachSettled (E0 [recA_blank; recB]) "a" = true /\
  cachedIds (snd (loadFromConfigurations (E0 [recA_blank; recB]) false ready)) = ["b"] /\
  length (heap (snd (loadFromConfigurations (E0 [recA_blank; recB]) false ready))) = 1.
Proof. repeat split. Qed.

(** What the prune does while the detach is still pending: the record goes
    through the selection and its handle is cached. *)
Example load_pending_detach :
  cachedIds (snd (loadFromConfigurations (E_pending [recA_blank]) false ready)) = ["a"].
Proof. reflexivity. Qed.

(** C4, as stated, fails: [init] fails on "a", the first of two valid
    records.  The load ends with that failure; "b" is neither constructed nor
    initialised, nothing is written back and the cache stays empty. *)
Lemma load_init_failure_counterexample :
  loadFromConfigurations (E_initFails [recA; recB]) false ready
  = (Err (Failure "init failed"),
     {| uri := Some "file:///ws";
        _cache := [];
        heap := [bound (E_initFails [recA; recB]) "file:///ws" TOMCAT recA];
        events := [Init 0] |}).
Proof. reflexivity. Qed.

Lemma load_init_failure_aborts_witness :
  exists s',
    loadFromConfigurations (E_initFails [recB; recA; recC]) false ready
    = (Err (Failure "init failed"), s') /\
    _cache s' = _cache ready /\
    heap s' = heap ready
              ++ omap (boundOf (E_initFails [recB; recA; recC]) "file:///ws") [recB]
              ++ [bound (E_initFails [recB; recA; recC]) "file:///ws" TOMCAT recA] /\
    events s' = events ready ++ detachRequests [recB; recA; recC]
                ++ map Init (seq (length (heap ready)) (S (length [recB]))).
Proof.
  apply (load_init_failure_aborts (E_initFails [recB; recA; recC]) false ready
           [recB; recA; recC] "file:///ws" [recB] recA [recC] TOMCAT
           (Failure "init failed")).
  - reflexivity.
  - reflexivity.
  - reflexivity.
  - constructor; [|constructor]. eexists. split; reflexivity.
  - reflexivity.
  - reflexivity.
Defined.

Lemma setAppsToContainer_upserts_witness :
  setAppsToContainer [0; 1] twins
  = (Ok (_cache (upsertAll (drop 2 [0; 1]) (upsertAll (take 2 [0; 1]) twins))),
     upsertAll (drop 2 [0; 1]) (upsertAll (take 2 [0; 1]) twins)).
Proof.
  refine (proj1 (setAppsToContainer_upserts [0; 1] twins 1 1 _ _)).
  - repeat constructor.
  - reflexivity.
Defined.

(** The second twin is folded into the first: one cache entry, the first
    object, now carrying the second one's config. *)
Example twins_upserted :
  _cache (snd (setAppsToContainer [0; 1] twins)) = [0] /\
  config <$> heap (snd (setAppsToContainer [0; 1] twins)) !! 0
  = config <$> heap twins !! 1 /\
  h_type <$> heap (snd (setAppsToContainer [0; 1] twins)) !! 0 = Some TOMCAT.
Proof. repeat split. Qed.

Lemma load_exactly_replaces_witness :
  (forall r, r ∈ _cache (snd (loadFromConfigurations (E0 [recB]) true withA)) ->
     length (heap withA) <= r /\
     exists h, heap (snd (loadFromConfigurations (E0 [recB]) true withA)) !! r = Some h /\
               boundTo (E0 [recB]) [recB] (config h)) /\
  (forall i, i ∈ cachedIds (snd (loadFromConfigurations (E0 [recB]) true withA)) ->
     exists c, In c [recB] /\ id c = i) /\
  (forall i, i ∈ cachedIds withA -> (forall c, In c [recB] -> id c <> i) ->
     i ∉ cachedIds (snd (loadFromConfigurations (E0 [recB]) true withA))).
Proof.
  apply (load_exactly_replaces (E0 [recB]) withA [recB]). reflexivity.
Defined.

Example load_exactly_drops_a :
  cachedIds withA = ["a"] /\
  cachedIds (snd (loadFromConfigurations (E0 [recB]) true withA)) = ["b"].
Proof. split; reflexivity. Qed.

Lemma createApplication_outcomes_witness :
  _cache (snd (createApplication (E0 []) (Some "TOMCAT") None withA)) = _cache withA.
Proof.
  refine (proj1 (createApplication_outcomes (E0 []) (Some "TOMCAT") None withA
                   (fst (createApplication (E0 []) (Some "TOMCAT") None withA))
                   (snd (createApplication (E0 []) (Some "TOMCAT") None withA))
                   wf_withA _)).
  reflexivity.
Defined.

Example createApplication_samples :
  fst (createApplication (E0 []) (Some "TOMCAT") None unset)
  = Err (AppError (newError "E_AP_NFWS")) /\
  fst (createApplication (E0 []) (Some "UNKNOWN") None ready)
  = Err (AppError (newError "E_AP_NVAT")) /\
  fst (createApplication (E0 []) (Some "UNKNOWN") None unset)
  = Err (AppError (newError "E_AP_NFWS")) /\
  getId <$> heap (snd (createApplication (E0 []) (Some "TOMCAT") None ready)) !! 0
  = Some "App1700000000000" /\
  getId <$> heap (snd (createApplication (E0 []) (Some "TOMCAT") (Some "") ready)) !! 0
  = Some "App1700000000000".
Proof. repeat split. Qed.

Lemma cache_ids_unique_witness :
  NoDup (cachedIds
           (perform (CallSetAppsToContainer [0; 1])
              (perform (CallLoadFromConfigurations (E0 [recA; recA_fixed; recB]) false)
                 (perform (CallInitialize "file:///ws") unset)))).
Proof.
  apply cache_ids_unique.
  apply reachable_call, reachable_call, reachable_call, reachable_start.
  reflexivity.
Defined.

Lemma load_read_failure_witness :
  loadFromConfigurations E_unreadable true withA = (Err (Failure "ENOENT"), withA).
Proof.
  apply (load_read_failure E_unreadable true withA (Failure "ENOENT")). reflexivity.
Defined.

Example toString_samples :
  let existsCode c := String.eqb c "E_AP_NVAT" in
  let getMessage c := if String.eqb c "E_AP_NVAT" then "No valid application type" else c in
  toString existsCode getMessage {| msg := "xx"; code := Some "E_AP_NVAT" |}
  = "No valid application type (xx)" /\
  toString existsCode getMessage {| msg := ""; code := Some "E_AP_NVAT" |}
  = "No valid application type" /\
  toString existsCode getMessage (newError ErrorCodes.NoValidAppType)
  = "No valid application type" /\
  toString existsCode getMessage {| msg := "disk full"; code := Some "E_UNKNOWN" |}
  = "disk full".
Proof. repeat split. Qed.

(** * Further properties *)

(** ** The kind lookup *)

(** A class is found for exactly the two member names, spelled as the enum
    spells them, and the class found is the one of that name; the same holds
    for the type tag of a record once it has gone through the enum object. *)
Theorem findClassModule_exact ty c App :
  (findClassModule ty = Ok App <-> ty = Some (AppTypes_value App)) /\
  (classOf c = Ok App <-> type c = AppTypes_value App) /\
  ((forall App', ty <> Some (AppTypes_value App')) ->
   findClassModule ty = Err (AppError (newError ErrorCodes.NoValidAppType))).
Proof.
  assert (forall ty', findClassModule ty' = Ok App <-> ty' = Some (AppTypes_value App)) as H.
  { intros ty'. unfold findClassModule. destruct ty' as [t|]; [|split; discriminate].
    destruct (String.eqb_spec t "TOMCAT") as [->|Ht].
    { destruct App; split; intros [=]; reflexivity. }
    destruct (String.eqb_spec t "SPRING_BOOT") as [->|Hs].
    { destruct App; split; intros [=]; reflexivity. }
    split; [discriminate|]. intros [= ->]. destruct App; contradiction. }
  split; [apply H|]. split.
  - unfold classOf. rewrite H. unfold AppTypes_index.
    destruct (String.eqb_spec (type c) "TOMCAT") as [->|Ht].
    { destruct App; split; intros [=]; reflexivity. }
    destruct (String.eqb_spec (type c) "SPRING_BOOT") as [->|Hs].
    { destruct App; split; intros [=]; reflexivity. }
    split; [discriminate|]. intros Hc. destruct App; contradiction.
  - intros Hn. apply findClassModule_unregistered. unfold registeredKind.
    intros [Ht|Hs]; [apply (Hn TOMCAT) | apply (Hn SPRING_BOOT)]; assumption.
Qed.

(** ** The property merge *)

Lemma merged_key prev p :
  key (if existsb (fun pv => String.eqb (key pv) (key p) && changeable pv) prev
       then match find (fun pv => String.eqb (key pv) (key p)) prev with
            | Some pv => pv
            | None => p
            end
       else p) = key p.
Proof.
  destruct (existsb _ prev); [|reflexivity].
  destruct (find _ prev) as [m|] eqn:Hf; [|reflexivity].
  apply find_some in Hf as [_ Hf]. now apply String.eqb_eq in Hf.
Qed.

(** The merged list has the keys of the kind's defaults, in their order: a
    key that only the persisted record has is dropped, a key that only the
    defaults have is added. *)
Theorem mergeProperties_keys pure prev :
  map key (mergeProperties pure prev) = map key pure.
Proof.
  unfold mergeProperties. rewrite map_map. apply map_ext. intros p.
  apply merged_key.
Qed.

Lemma existsb_false_In {A} (f : A -> bool) (l : list A) (x : A) :
  existsb f l = false -> In x l -> f x = false.
Proof.
  intros Hex Hin. destruct (f x) eqn:Hf; [|reflexivity].
  rewrite <- Hex. symmetry. apply existsb_exists. eauto.
Qed.

Lemma key_injective (l : list ConfigurationProperty) p q :
  NoDup (map key l) -> In p l -> In q l -> key p = key q -> p = q.
Proof.
  induction l as [|x l IH]; cbn; [tauto|].
  intros Hnd Hp Hq Hk. apply NoDup_cons in Hnd as [Hx Hnd].
  assert (forall y, In y l -> key y = key x -> False) as Hfresh.
  { intros y Hy Hyx. apply Hx. rewrite <- Hyx.
    apply list_elem_of_In. now apply in_map. }
  destruct Hp as [->|Hp], Hq as [->|Hq]; auto.
  - exfalso. eapply Hfresh; eauto.
  - exfalso. eapply Hfresh; eauto.
Qed.

(** Merging is stable: when neither the defaults nor the persisted record
    repeat a key, merging the defaults with an already merged list gives that
    list back.  A configuration written back by one load is therefore read
    unchanged by the next. *)
Theorem mergeProperties_stable pure prev :
  NoDup (map key pure) ->
  NoDup (map key prev) ->
  mergeProperties pure (mergeProperties pure prev) = mergeProperties pure prev.
Proof.
  intros Hpure Hprev.
  set (m := mergeProperties pure prev).
  unfold mergeProperties at 1. subst m. unfold mergeProperties at 3.
  apply map_ext_in. intros p Hp.
  set (g := fun p =>
         if existsb (fun pv => String.eqb (key pv) (key p) && changeable pv) prev
         then match find (fun pv => String.eqb (key pv) (key p)) prev with
              | Some pv => pv
              | None => p
              end
         else p).
  change (mergeProperties pure prev) with (map g pure).
  change (if existsb _ prev then _ else p) with (g p).
  assert (key (g p) = key p) as Hkey by apply merged_key.
  assert (In (g p) (map g pure)) as Hin by now apply in_map.
  assert (forall x, In x (map g pure) -> key x = key p -> x = g p) as Huniq.
  { intros x Hx Hk. apply in_map_iff in Hx as (q & <- & Hq).
    f_equal. apply (key_injective pure); auto.
    rewrite <- Hk. symmetry. apply merged_key. }
  assert (find (fun pv => String.eqb (key pv) (key p)) (map g pure) = Some (g p)) as ->.
  { destruct (find _ (map g pure)) as [x|] eqn:Hf.
    - apply find_some in Hf as [Hx Hk]. apply String.eqb_eq in Hk.
      now rewrite (Huniq x Hx Hk).
    - apply (find_none _ _ Hf) in Hin. apply String.eqb_neq in Hin. contradiction. }
  assert (existsb (fun pv => String.eqb (key pv) (key p) && changeable pv) (map g pure)
          = changeable (g p)) as ->.
  { destruct (existsb _ (map g pure)) eqn:Hex.
    - apply existsb_exists in Hex as (x & Hx & Hc).
      apply andb_true_iff in Hc as [Hk Hc]. apply String.eqb_eq in Hk.
      now rewrite <- (Huniq x Hx Hk).
    - symmetry. apply (existsb_false_In _ _ _ Hex) in Hin.
      apply andb_false_iff in Hin as [Hk|Hc]; [|exact Hc].
      apply String.eqb_neq in Hk. contradiction. }
  destruct (changeable (g p)) eqn:Hc; [reflexivity|].
  subst g. cbn beta in *.
  destruct (existsb _ prev) eqn:Hex; [|reflexivity].
  apply existsb_hasChangeable in Hex.
  destruct (find_key_defined _ _ Hex) as [m0 Hm0]. rewrite Hm0 in *.
  apply find_firstWithKey in Hm0.
  rewrite (firstWithKey_unique_changeable _ _ _ Hprev Hex Hm0) in Hc. discriminate.
Qed.

(** ** Lookup *)

Lemma getApplication_found i s :
  snd (getApplication i s) = s /\
  (i ∈ cachedIds s ->
   exists r, fst (getApplication i s) = Ok (Some r) /\ firstCached s i r) /\
  (i ∉ cachedIds s -> fst (getApplication i s) = Ok None).
Proof.
  unfold getApplication. run. cbn [fst snd]. split; [reflexivity|]. split.
  - intros Hi. apply cached_cachedIds in Hi.
    destruct (find _ _) as [r|] eqn:Hf.
    + exists r. split; [reflexivity|]. now apply find_firstCached.
    + unfold cached in Hi. apply existsb_exists in Hi as (r & Hr & Hid).
      now rewrite (find_none _ _ Hf r Hr) in Hid.
  - intros Hi. apply cached_false in Hi.
    destruct (find _ _) as [r|] eqn:Hf; [|reflexivity].
    apply find_some in Hf as [Hr Hid]. unfold cached in Hi.
    now rewrite (existsb_false_In _ _ _ Hi Hr) in Hid.
Qed.

(** [getApplication] reads and never writes.  For an id that some cached
    handle has it gives the first cache entry with that id; for any other id
    it gives nothing. *)
Theorem getApplication_lookup i s :
  snd (getApplication i s) = s /\
  (i ∈ cachedIds s ->
   exists r, fst (getApplication i s) = Ok (Some r) /\ firstCached s i r) /\
  (i ∉ cachedIds s -> fst (getApplication i s) = Ok None).
Proof. apply getApplication_found. Qed.

(** ** What an upsert leaves alone *)

Lemma upsertedAt_grows app s :
  exists extra, _cache (upsertedAt app s) = _cache s ++ extra /\
                forall r, In r extra -> r = app.
Proof.
  unfold upsertedAt. destruct (heap s !! app) as [a|].
  - rewrite upserted_cache. destruct (cached s (getId a)).
    + exists []. split; [now rewrite app_nil_r | intros r []].
    + exists [app]. split; [reflexivity|]. intros r [<-|[]]. reflexivity.
  - exists []. split; [now rewrite app_nil_r | intros r []].
Qed.

Lemma upsertAll_grows apps s :
  exists extra, _cache (upsertAll apps s) = _cache s ++ extra /\
                forall r, In r extra -> In r apps.
Proof.
  revert s. induction apps as [|app apps IH]; intros s; cbn [upsertAll fold_left].
  - exists []. split; [now rewrite app_nil_r | intros r []].
  - destruct (IH (upsertedAt app s)) as (e2 & Hc2 & He2).
    destruct (upsertedAt_grows app s) as (e1 & Hc1 & He1).
    exists (e1 ++ e2). split.
    + change (fold_left _ apps ?x) with (upsertAll apps x).
      now rewrite Hc2, Hc1, app_assoc.
    + intros r Hr. apply in_app_or in Hr as [Hr|Hr]; [left|right]; auto.
      symmetry. auto.
Qed.

(** An object keeps its class and its location through an upsert. *)
Lemma upsertedAt_object app s r h' :
  heap (upsertedAt app s) !! r = Some h' ->
  exists h, heap s !! r = Some h /\ h_type h' = h_type h /\ h_uri h' = h_uri h.
Proof.
  unfold upsertedAt. destruct (heap s !! app) as [a|]; [|eauto].
  unfold upserted. destruct (cached s (getId a)); [|eauto].
  destruct (find _ _) as [temp|]; [|eauto].
  cbn [heap with_heap]. rewrite list_lookup_alter.
  destruct (decide (temp = r)) as [->|]; [|eauto].
  destruct (heap s !! r) as [h|]; [|discriminate].
  intros [= <-]. eauto.
Qed.

Lemma upsertedAt_other app s r :
  idAt s app <> idAt s r -> heap (upsertedAt app s) !! r = heap s !! r.
Proof.
  intros Hne. unfold upsertedAt. destruct (heap s !! app) as [a|] eqn:Ha; [|reflexivity].
  unfold upserted. destruct (cached s (getId a)); [|reflexivity].
  destruct (find _ _) as [temp|] eqn:Hf; [|reflexivity].
  apply find_some in Hf as [_ Hf]. apply hasId_idAt in Hf.
  cbn [heap with_heap]. apply list_lookup_alter_ne. intros ->.
  apply Hne. rewrite Hf. unfold idAt. now rewrite Ha.
Qed.

(** [setAppsToContainer] stays within bounds: it makes no call outside the
    registry and leaves the workspace location alone; the cache keeps its
    entries in place and only grows at its end, by handles that were passed;
    every object keeps its class, its location and its id; and an object
    whose id is the id of no handle passed is left exactly as it was. *)
Theorem setAppsToContainer_frame apps s :
  Forall (fun r => r < length (heap s)) apps ->
  let s' := snd (setAppsToContainer apps s) in
  uri s' = uri s /\ events s' = events s /\
  (exists extra, _cache s' = _cache s ++ extra /\ forall r, In r extra -> In r apps) /\
  (forall r h', heap s' !! r = Some h' ->
     exists h, heap s !! r = Some h /\
               h_type h' = h_type h /\ h_uri h' = h_uri h /\ getId h' = getId h) /\
  (forall r, (forall app, In app apps -> idAt s app <> idAt s r) ->
     heap s' !! r = heap s !! r).
Proof.
  intros Hvalid s'.
  assert (s' = upsertAll apps s) as ->.
  { subst s'. unfold setAppsToContainer.
    now rewrite run_bind, forEach_upsert_run by exact Hvalid. }
  split; [apply upsertAll_uri|]. split; [apply upsertAll_events|].
  split; [apply upsertAll_grows|]. clear Hvalid. split.
  - intros r h' Hh'.
    assert (exists h, heap s !! r = Some h /\ h_type h' = h_type h /\ h_uri h' = h_uri h)
      as (h & Hh & Ht & Hu).
    { revert s Hh'. induction apps as [|app apps IH]; intros s Hh'; [eauto|].
      cbn [upsertAll fold_left] in Hh'.
      destruct (IH _ Hh') as (h1 & Hh1 & Ht & Hu).
      destruct (upsertedAt_object _ _ _ _ Hh1) as (h & Hh & Ht' & Hu').
      exists h. split; [exact Hh|]. split; congruence. }
    exists h. split; [exact Hh|]. split; [exact Ht|]. split; [exact Hu|].
    pose proof (upsertAll_idAt apps s r) as Hid. unfold idAt in Hid.
    rewrite Hh', Hh in Hid. now injection Hid.
  - revert s. induction apps as [|app apps IH]; intros s r Hr; [reflexivity|].
    cbn [upsertAll fold_left]. change (fold_left _ apps ?x) with (upsertAll apps x).
    rewrite IH.
    + apply upsertedAt_other. apply Hr. now left.
    + intros app' Hin. rewrite !upsertedAt_idAt. apply Hr. now right.
Qed.

Lemma find_pointwise {A} (f g : A -> bool) (l : list A) :
  (forall x, f x = g x) -> find f l = find g l.
Proof.
  intros H. induction l as [|y l IH]; cbn; [reflexivity|]. now rewrite H, IH.
Qed.

Lemma find_app_Some {A} (f : A -> bool) (l k : list A) (x : A) :
  find f l = Some x -> find f (l ++ k) = Some x.
Proof.
  induction l as [|y l IH]; cbn; [discriminate|].
  destruct (f y); auto.
Qed.

(** Insert, then look up.  After [setAppsToContainer], the id of every
    handle passed is found by [getApplication]; and an id that was found
    before the call is found after it at the same entry. *)
Theorem setAppsToContainer_then_getApplication apps s :
  Forall (fun r => r < length (heap s)) apps ->
  let s' := snd (setAppsToContainer apps s) in
  (forall app h, In app apps -> heap s !! app = Some h ->
     exists r, fst (getApplication (getId h) s') = Ok (Some r) /\
               idAt s' r = Some (getId h)) /\
  (forall i r, fst (getApplication i s) = Ok (Some r) ->
     fst (getApplication i s') = Ok (Some r)).
Proof.
  intros Hvalid s'.
  assert (s' = upsertAll apps s) as ->.
  { subst s'. unfold setAppsToContainer.
    now rewrite run_bind, forEach_upsert_run by exact Hvalid. }
  split.
  - intros app h Hin Hh.
    assert (getId h ∈ cachedIds (upsertAll apps s)) as Hc.
    { apply upsertAll_cachedIds. right. exists app. split; [exact Hin|].
      unfold idAt. now rewrite Hh. }
    destruct (getApplication_found (getId h) (upsertAll apps s)) as (_ & Hfound & _).
    destruct (Hfound Hc) as (r & Hr & (_ & _ & _ & Hid & _)). eauto.
  - intros i r. unfold getApplication. run. cbn [fst].
    intros [= Hf]. f_equal. f_equal.
    destruct (upsertAll_grows apps s) as (extra & -> & _).
    rewrite (find_pointwise _ (hasId s i)).
    + now apply find_app_Some.
    + intros x. unfold hasId.
      pose proof (upsertAll_idAt apps s x) as Hid. unfold idAt in Hid.
      destruct (heap (upsertAll apps s) !! x), (heap s !! x); cbn in Hid;
        congruence.
Qed.

(** ** The cached ids in closed form *)

Lemma cached_existsb s i : cached s i = existsb (String.eqb i) (cachedIds s).
Proof.
  destruct (existsb _ (cachedIds s)) eqn:Hex.
  - apply cached_cachedIds. apply existsb_exists in Hex as (j & Hj & Hij).
    apply String.eqb_eq in Hij. subst. now apply list_elem_of_In.
  - apply cached_false. intros Hin. apply list_elem_of_In in Hin.
    apply (existsb_false_In _ _ _ Hex) in Hin. now rewrite String.eqb_refl in Hin.
Qed.

Lemma upsertAll_cachedIds_fold apps s :
  cachedIds (upsertAll apps s) = addIds (cachedIds s) (omap (idAt s) apps).
Proof.
  revert s. induction apps as [|app apps IH]; intros s; [reflexivity|].
  cbn [upsertAll fold_left]. change (fold_left _ apps ?x) with (upsertAll apps x).
  rewrite IH, upsertedAt_cachedIds.
  rewrite (omap_pointwise _ (idAt s)) by (intros; apply upsertedAt_idAt).
  cbn [omap list_omap]. destruct (idAt s app) as [i|]; [|reflexivity].
  unfold addIds at 2. cbn [fold_left]. unfold addId at 2.
  now rewrite cached_existsb.
Qed.

Lemma addId_elem acc i j : j ∈ addId acc i <-> j ∈ acc \/ j = i.
Proof.
  unfold addId. destruct (existsb _ acc) eqn:Hex.
  - split; [auto|]. intros [H| ->]; [exact H|].
    apply existsb_exists in Hex as (k & Hk & Hik). apply String.eqb_eq in Hik.
    subst. now apply list_elem_of_In.
  - rewrite elem_of_app, list_elem_of_singleton. tauto.
Qed.

Lemma addIds_elem acc ids j : j ∈ addIds acc ids <-> j ∈ acc \/ In j ids.
Proof.
  revert acc. induction ids as [|i ids IH]; intros acc; cbn [addIds fold_left].
  - cbn. tauto.
  - change (fold_left addId ids ?x) with (addIds x ids).
    rewrite IH, addId_elem. cbn. intuition congruence.
Qed.

(** The ids cached after [setAppsToContainer] are those cached before,
    in their order, followed by the ids of the handles passed, in the order
    passed, each id once. *)
Theorem setAppsToContainer_ids apps s :
  Forall (fun r => r < length (heap s)) apps ->
  cachedIds (snd (setAppsToContainer apps s))
  = addIds (cachedIds s) (omap (idAt s) apps) /\
  length (omap (idAt s) apps) = length apps.
Proof.
  intros Hvalid. split.
  - unfold setAppsToContainer.
    rewrite run_bind, forEach_upsert_run by exact Hvalid.
    apply upsertAll_cachedIds_fold.
  - induction Hvalid as [|app apps Happ _ IH]; [reflexivity|].
    cbn [omap list_omap]. unfold idAt at 1.
    apply lookup_lt_is_Some in Happ as [h ->]. cbn. now rewrite IH.
Qed.

(** ** Creating and registering *)

Lemma firstCached_In s i r : firstCached s i r -> r ∈ _cache s /\ idAt s r = Some i.
Proof.
  intros (before & after & Hc & Hid & _). split; [|exact Hid].
  rewrite Hc. apply elem_of_app. right. now left.
Qed.

(** A handle created under an id and then passed to [setAppsToContainer].
    If the id is new to the cache, the handle becomes the last cache entry
    and [getApplication] finds it.  If the id is already cached, the cache
    keeps its entries and the first entry with that id takes over the config
    of the new handle, that is the kind's defaults with an empty [appPath]. *)
Theorem createApplication_then_register E ty j s u App :
  wf s ->
  uri s = Some u ->
  findClassModule ty = Ok App ->
  j <> "" ->
  let created := length (heap s) in
  let s1 := snd (createApplication E ty (Some j) s) in
  let s2 := snd (setAppsToContainer [created] s1) in
  fst (createApplication E ty (Some j) s) = Ok created /\
  (j ∉ cachedIds s ->
     _cache s2 = _cache s ++ [created] /\
     heap s2 = heap s ++ [construct E App j u] /\
     fst (getApplication j s2) = Ok (Some created)) /\
  (j ∈ cachedIds s ->
     exists temp h,
       firstCached s1 j temp /\ heap s !! temp = Some h /\
       _cache s2 = _cache s /\
       heap s2 !! temp = Some (setConfig (config (construct E App j u)) h)).
Proof.
  intros Hwf Hu Hc Hj created s1 s2.
  assert (idOrGenerated E (Some j) = j) as Hid.
  { cbn. unfold truthy. apply String.eqb_neq in Hj. now rewrite Hj. }
  assert (createApplication E ty (Some j) s
          = (Ok created, with_heap (heap s ++ [construct E App j u]) s)) as Hrun.
  { rewrite createApplication_run, Hu, Hc, Hid. reflexivity. }
  assert (s1 = with_heap (heap s ++ [construct E App j u]) s) as Hs1
    by (subst s1; now rewrite Hrun).
  assert (heap s1 !! created = Some (construct E App j u)) as Hnew
    by (rewrite Hs1; cbn; now apply list_lookup_middle).
  assert (cachedIds s1 = cachedIds s) as Hids
    by (rewrite Hs1; now apply cachedIds_grown).
  assert (s2 = upserted (construct E App j u) created s1) as Hs2.
  { subst s2. unfold setAppsToContainer. rewrite run_bind.
    cbn [forEach]. rewrite run_bind, upsert_run, Hnew. reflexivity. }
  split; [now rewrite Hrun|]. split.
  - intros Hfresh.
    assert (cached s1 j = false) as Hcached
      by (apply cached_false; now rewrite Hids).
    assert (s2 = with_cache (_cache s1 ++ [created]) s1) as Hs2'.
    { rewrite Hs2. unfold upserted.
      change (getId (construct E App j u)) with j. now rewrite Hcached. }
    split; [now rewrite Hs2', Hs1|]. split; [now rewrite Hs2', Hs1|].
    destruct (getApplication_found j s2) as (_ & Hfound & _).
    destruct Hfound as (r & Hr & Hfirst).
    { rewrite Hs2'. change (cachedIds (with_cache ?c ?x))
        with (omap (idAt x) c). rewrite omap_app. apply elem_of_app. right.
      cbn. unfold idAt. rewrite Hnew. cbn. now left. }
    rewrite Hr. f_equal. f_equal.
    apply firstCached_In in Hfirst as [Hin Hidr].
    rewrite Hs2' in Hin, Hidr. cbn [_cache with_cache] in Hin.
    apply elem_of_app in Hin as [Hin|Hin].
    + exfalso. apply Hfresh. rewrite <- Hids, cachedIds_idAt.
      apply list_elem_of_omap. exists r. split; [exact Hin | exact Hidr].
    + now apply list_elem_of_singleton in Hin.
  - intros Hold.
    assert (cached s1 j = true) as Hcached
      by (apply cached_cachedIds; now rewrite Hids).
    rewrite Hs2. unfold upserted.
    change (getId (construct E App j u)) with j. rewrite Hcached.
    destruct (find _ _) as [temp|] eqn:Hf.
    2:{ unfold cached in Hcached. apply existsb_exists in Hcached as (r & Hr & Hh).
        now rewrite (find_none _ _ Hf r Hr) in Hh. }
    pose proof (find_firstCached _ _ _ Hf) as Hfirst.
    destruct (firstCached_In _ _ _ Hfirst) as [Hin _].
    assert (temp < length (heap s)) as Hlt.
    { rewrite Hs1 in Hin. unfold wf in Hwf. rewrite Forall_forall in Hwf.
      now apply Hwf. }
    destruct (lookup_lt_is_Some_2 _ _ Hlt) as [h Hh].
    exists temp, h. split; [exact Hfirst|]. split; [exact Hh|].
    split; [now rewrite Hs1|].
    cbn [heap with_heap]. rewrite list_lookup_alter_eq, Hs1. cbn [heap with_heap].
    now rewrite lookup_app_l, Hh.
Qed.

(** ** Exactly mode against merge mode *)

(** Once the read has succeeded, a load in exactly mode is a [reset]
    followed by a load in merge mode: same outcome, same state.  (When the
    read fails the two differ: exactly mode keeps the cache.) *)
Theorem load_exactly_is_reset_then_load E s apps :
  readConfigFile E = Ok apps ->
  loadFromConfigurations E true s
  = loadFromConfigurations E false (snd (reset s)).
Proof.
  intros Hread.
  rewrite (load_run E true s apps Hread), (load_run E false _ apps Hread).
  reflexivity.
Qed.

(** ** Objects that existed before a load *)

Lemma find_Forall_ext {A} (f g : A -> bool) (l : list A) :
  Forall (fun x => f x = g x) l -> find f l = find g l.
Proof.
  induction 1 as [|x l Hx _ IH]; cbn; [reflexivity|]. now rewrite Hx, IH.
Qed.

Lemma upsertedAt_old_untouched n (ids0 : list string) app s :
  (forall r, r ∈ _cache s -> r < n -> exists i, idAt s r = Some i /\ i ∈ ids0) ->
  n <= app ->
  (forall i, idAt s app = Some i -> i ∉ ids0) ->
  (forall r, r ∈ _cache (upsertedAt app s) -> r < n ->
     exists i, idAt (upsertedAt app s) r = Some i /\ i ∈ ids0) /\
  (forall r, r < n -> heap (upsertedAt app s) !! r = heap s !! r).
Proof.
  intros Hcache Happ Hfresh. split.
  - intros r Hr Hlt. rewrite upsertedAt_idAt. apply Hcache; [|exact Hlt].
    destruct (upsertedAt_grows app s) as (extra & Hc & He). rewrite Hc in Hr.
    apply elem_of_app in Hr as [Hr|Hr]; [exact Hr|].
    apply list_elem_of_In, He in Hr. lia.
  - intros r Hlt. unfold upsertedAt.
    destruct (heap s !! app) as [a|] eqn:Ha; [|reflexivity].
    unfold upserted. destruct (cached s (getId a)); [|reflexivity].
    destruct (find _ _) as [temp|] eqn:Hf; [|reflexivity].
    apply find_some in Hf as [Hin Hf]. apply hasId_idAt in Hf.
    cbn [heap with_heap]. apply list_lookup_alter_ne. intros ->.
    destruct (Hcache r (proj2 (list_elem_of_In _ _) Hin) Hlt) as (i & Hi & Hi0).
    apply (Hfresh i); [|exact Hi0].
    unfold idAt. rewrite Ha. cbn. congruence.
Qed.

Lemma upsertAll_old_untouched n (ids0 : list string) apps s :
  (forall r, r ∈ _cache s -> r < n -> exists i, idAt s r = Some i /\ i ∈ ids0) ->
  Forall (fun app => n <= app /\ forall i, idAt s app = Some i -> i ∉ ids0) apps ->
  forall r, r < n -> heap (upsertAll apps s) !! r = heap s !! r.
Proof.
  revert s. induction apps as [|app apps IH]; intros s Hcache Happs r Hlt;
    [reflexivity|].
  apply Forall_cons in Happs as [[Happ Hfresh] Happs].
  destruct (upsertedAt_old_untouched n ids0 app s Hcache Happ Hfresh) as [Hc' Hh'].
  cbn [upsertAll fold_left]. change (fold_left _ apps ?x) with (upsertAll apps x).
  rewrite IH; auto.
  eapply Forall_impl; [exact Happs|]. cbn. intros app' [Hge Hf].
  split; [exact Hge|]. intros i. rewrite upsertedAt_idAt. apply Hf.
Qed.

Lemma cachedIds_lookup s r :
  wf s -> r ∈ _cache s -> exists i, idAt s r = Some i /\ i ∈ cachedIds s.
Proof.
  intros Hwf Hr. unfold wf in Hwf. rewrite Forall_forall in Hwf.
  destruct (lookup_lt_is_Some_2 _ _ (Hwf r Hr)) as [h Hh].
  exists (getId h). assert (idAt s r = Some (getId h)) as Hid
    by (unfold idAt; now rewrite Hh).
  split; [exact Hid|]. rewrite cachedIds_idAt. apply list_elem_of_omap. eauto.
Qed.

(** The fresh objects of a load carry ids that were not cached. *)
Lemma builds_ids_fresh E apps exactly s h :
  In h (snd (builds E (uri s) (selected E exactly apps s))) ->
  getId h ∉ cachedIds (cleared exactly s).
Proof.
  intros Hh. apply builds_bound in Hh as (u' & c & App & _ & Hsel & _ & ->).
  apply selection_In in Hsel as (_ & _ & Hc). now apply cached_false.
Qed.

(** A load, in either mode and whatever its outcome, changes no object that
    existed before it: a handle that was already cached keeps its config even
    when the file now holds another one under its id.  In merge mode the
    cache also keeps its entries in place and only grows at its end, so an id
    that [getApplication] found before the load is found at the same entry
    after it. *)
Theorem load_leaves_existing_objects E exactly s :
  wf s ->
  let s' := snd (loadFromConfigurations E exactly s) in
  (forall r, r < length (heap s) -> heap s' !! r = heap s !! r) /\
  (exactly = false ->
   (exists extra, _cache s' = _cache s ++ extra /\
                  forall r, In r extra -> length (heap s) <= r) /\
   (forall i r, fst (getApplication i s) = Ok (Some r) ->
      fst (getApplication i s') = Ok (Some r))).
Proof.
  intros Hwf s'.
  destruct (readConfigFile E) as [apps|t] eqn:Hread.
  2:{ subst s'. rewrite (load_read_failure_run E exactly s t Hread). cbn [snd].
      split; [auto|]. intros _. split; [|auto].
      exists []. split; [now rewrite app_nil_r | intros r []]. }
  pose proof (load_run E exactly s apps Hread) as Hrun. cbv zeta in Hrun.
  set (sel := selected E exactly apps s) in *.
  set (hs := snd (builds E (uri s) sel)) in *.
  set (A := allocated hs (requested apps (cleared exactly s))) in *.
  set (W := with_events (events A ++ [Write (map config hs)]) A) in *.
  set (U := upsertAll (seq (length (heap s)) (length hs)) W) in *.
  assert (heap A = heap s ++ hs) as HheapA by (subst A; now destruct exactly).
  assert (_cache A = _cache (cleared exactly s)) as HcacheA by reflexivity.
  assert (forall r, r < length (heap s) -> heap A !! r = heap s !! r) as HA.
  { intros r Hr. rewrite HheapA. now apply lookup_app_l. }
  pose proof (wf_cleared exactly s Hwf) as Hwf0.
  assert (forall r, r < length (heap s) -> heap U !! r = heap s !! r) as HU.
  { intros r Hr. rewrite <- (HA r Hr). subst U.
    change (heap A !! r) with (heap W !! r).
    apply (upsertAll_old_untouched (length (heap s)) (cachedIds (cleared exactly s)));
      [| |exact Hr].
    - intros r' Hr' _. change (_cache W) with (_cache (cleared exactly s)) in Hr'.
      destruct (cachedIds_lookup _ _ Hwf0 Hr') as (i & Hi & Hi0).
      exists i. split; [|exact Hi0].
      assert (r' < length (heap s)) as Hlt.
      { unfold wf in Hwf0. rewrite Forall_forall in Hwf0.
        specialize (Hwf0 r' Hr'). now destruct exactly. }
      unfold idAt in *. change (heap W) with (heap A). rewrite (HA r' Hlt).
      now destruct exactly.
    - apply Forall_forall. intros app Happ. apply list_elem_of_In, in_seq in Happ.
      split; [lia|]. intros i Hi. unfold idAt in Hi. change (heap W) with (heap A) in Hi.
      rewrite HheapA, lookup_app_r in Hi by lia.
      destruct (hs !! _) as [h|] eqn:Hh; [|discriminate]. injection Hi as <-.
      apply list_elem_of_lookup_2, list_elem_of_In in Hh.
      now apply (builds_ids_fresh E apps exactly s). }
  assert (s' = A \/ s' = W \/ s' = U) as Hs'.
  { subst s'. rewrite Hrun. destruct (fst (builds E (uri s) sel)) as [[]|t]; [|auto].
    destruct (writeConfigApplication E _); auto. }
  split.
  - intros r Hr. destruct Hs' as [ -> | [ -> | -> ] ]; auto.
  - intros ->.
    assert (exists extra, _cache s' = _cache s ++ extra /\
              forall r, In r extra -> length (heap s) <= r) as Hgrow.
    { destruct Hs' as [ -> | [ -> | -> ] ].
      - exists []. split; [now rewrite app_nil_r | intros r []].
      - exists []. split; [now rewrite app_nil_r | intros r []].
      - destruct (upsertAll_grows (seq (length (heap s)) (length hs)) W)
          as (extra & Hc & He).
        exists extra. split; [exact Hc|]. intros r Hr. apply He, in_seq in Hr. lia. }
    split; [exact Hgrow|].
    intros i r. unfold getApplication. run. cbn [fst]. intros [= Hf]. f_equal. f_equal.
    destruct Hgrow as (extra & -> & _).
    apply find_app_Some. rewrite <- Hf. apply find_Forall_ext.
    eapply Forall_impl; [exact Hwf|]. cbn. intros x Hx. unfold hasId.
    destruct Hs' as [ -> | [ -> | -> ] ]; [rewrite (HA x Hx) | | rewrite (HU x Hx)];
      try reflexivity.
    change (heap W) with (heap A). now rewrite (HA x Hx).
Qed.

(** ** A load that goes through *)

Lemma omap_idAt_fresh (l hs : list Handle) s :
  heap s = l ++ hs ->
  omap (idAt s) (seq (length l) (length hs)) = map getId hs.
Proof.
  intros Hh. pose proof (seq_lookup_app l hs) as Hall. rewrite <- Hh in Hall.
  revert Hall. generalize (seq (length l) (length hs)). clear Hh. intros rs Hall.
  induction Hall as [|r h rs hs' Hr _ IH]; [reflexivity|].
  cbn [omap list_omap map]. unfold idAt at 1. rewrite Hr.
  cbn [fmap option_fmap option_map]. f_equal. exact IH.
Qed.

Lemma builds_complete_ids E u cs x :
  fst (builds E u cs) = Ok x -> map getId (snd (builds E u cs)) = map id cs.
Proof.
  intros Hb. pose proof (builds_complete E u cs x Hb) as Hall.
  revert Hall. generalize (snd (builds E u cs)). clear Hb. intros hs Hall.
  induction Hall as [|c h cs' hs Hc _ IH]; [reflexivity|].
  cbn [map]. f_equal; [exact Hc | exact IH].
Qed.

(** After a load that goes through, the cached ids are those cached when the
    selection ran (none in exactly mode), followed by the ids of the selected
    records in file order, each once.  Every record of the file that was not
    pruned is then found by [getApplication] under its id. *)
Theorem load_success_ids E exactly s apps :
  readConfigFile E = Ok apps ->
  wf s ->
  fst (loadFromConfigurations E exactly s) = Ok tt ->
  let s' := snd (loadFromConfigurations E exactly s) in
  cachedIds s' = addIds (cachedIds (cleared exactly s))
                   (map id (selected E exactly apps s)) /\
  (forall c, In c apps -> invalid c && detachSettled E (id c) = false ->
     exists r, fst (getApplication (id c) s') = Ok (Some r) /\
               idAt s' r = Some (id c)).
Proof.
  intros Hread Hwf Hok s'.
  assert (cachedIds s' = addIds (cachedIds (cleared exactly s))
                           (map id (selected E exactly apps s))) as Hids.
  { subst s'. revert Hok. rewrite (load_run E exactly s apps Hread).
    set (sel := selected E exactly apps s).
    set (hs := snd (builds E (uri s) sel)).
    destruct (fst (builds E (uri s) sel)) as [[]|t] eqn:Hb; [|discriminate].
    destruct (writeConfigApplication E _) as [t|]; [discriminate|]. intros _.
    cbn [snd]. rewrite upsertAll_cachedIds_fold.
    change (cachedIds (with_events ?e ?x)) with (cachedIds x).
    rewrite cachedIds_allocated by (now apply wf_cleared).
    f_equal. rewrite <- (builds_complete_ids _ _ _ _ Hb). fold hs.
    apply omap_idAt_fresh. now destruct exactly. }
  split; [exact Hids|].
  intros c Hin Hkept.
  assert (id c ∈ cachedIds s') as Hc.
  { rewrite Hids. apply addIds_elem.
    destruct (cached (cleared exactly s) (id c)) eqn:Hcached.
    - left. now apply cached_cachedIds.
    - right. apply in_map. apply selection_In. auto. }
  destruct (getApplication_found (id c) s') as (_ & Hfound & _).
  destruct (Hfound Hc) as (r & Hr & Hfirst).
  exists r. split; [exact Hr|]. now apply firstCached_In in Hfirst.
Qed.

(** The calls a load that goes through makes, in order: the detach requests,
    one [init] per selected record on consecutive fresh objects (also for a
    record whose id an earlier record of the file already has, whose handle is
    not cached afterwards), then one write-back of the selected records with
    their merged properties.  Records whose id was already cached are not in
    the list written back. *)
Theorem load_success_calls E exactly s apps :
  readConfigFile E = Ok apps ->
  fst (loadFromConfigurations E exactly s) = Ok tt ->
  let s' := snd (loadFromConfigurations E exactly s) in
  let sel := selected E exactly apps s in
  exists cs,
    events s' = events s ++ detachRequests apps
                ++ map Init (seq (length (heap s)) (length sel)) ++ [Write cs] /\
    Forall2 (fun c w => exists App, classOf c = Ok App /\ w = merged E App c) sel cs /\
    length (heap s') = length (heap s) + length sel.
Proof.
  intros Hread Hok s' sel. subst s'. revert Hok.
  rewrite (load_run E exactly s apps Hread). fold sel.
  set (hs := snd (builds E (uri s) sel)).
  destruct (fst (builds E (uri s) sel)) as [[]|t] eqn:Hb; [|discriminate].
  destruct (writeConfigApplication E _) as [t|]; [discriminate|]. intros _.
  destruct (builds_length E (uri s) sel) as [_ Hlen]. specialize (Hlen _ Hb).
  fold hs in Hlen.
  exists (map config hs). cbn [snd]. split; [|split].
  - rewrite upsertAll_events. cbn [events with_events allocated requested heap].
    assert (events (cleared exactly s) = events s) as -> by now destruct exactly.
    assert (heap (cleared exactly s) = heap s) as -> by now destruct exactly.
    now rewrite Hlen, <- !app_assoc.
  - subst hs. clear Hlen. revert Hb. generalize (uri s). intros u.
    induction sel as [|c sel IH]; cbn; [constructor|].
    destruct u as [u'|]; cbn; [|discriminate].
    destruct (classOf c) as [App|t] eqn:Hc; cbn; [|discriminate].
    destruct (init E _); cbn; [discriminate|].
    destruct (builds E (Some u') sel) as [r hs]. cbn in *.
    intros Hr. constructor; [eauto|auto].
  - rewrite upsertAll_length. cbn [heap with_events allocated with_heap requested].
    assert (heap (cleared exactly s) = heap s) as -> by now destruct exactly.
    now rewrite length_app, Hlen.
Qed.

(** ** Loads that select nothing *)

(** When no record is selected (the file is empty, or every record is
    already cached or pruned), a load constructs and initialises nothing and
    needs no workspace location, but it still writes back, and what it writes
    is the empty list.  Its outcome is the outcome of that write, and the
    cache is the one before the call, emptied in exactly mode. *)
Theorem load_nothing_selected E exactly s apps :
  readConfigFile E = Ok apps ->
  selected E exactly apps s = [] ->
  let s' := snd (loadFromConfigurations E exactly s) in
  fst (loadFromConfigurations E exactly s)
  = match writeConfigApplication E [] with
    | Some t => Err t
    | None => Ok tt
    end /\
  events s' = events s ++ detachRequests apps ++ [Write []] /\
  heap s' = heap s /\ uri s' = uri s /\
  _cache s' = if exactly then [] else _cache s.
Proof.
  intros Hread Hsel s'. subst s'.
  rewrite (load_run E exactly s apps Hread), Hsel. cbn [builds fst snd map length seq].
  destruct (writeConfigApplication E []); cbn [fst snd upsertAll fold_left];
    (split; [reflexivity|]);
    cbn [events heap uri _cache with_events with_heap allocated requested map length seq];
    rewrite !app_nil_r, <- !app_assoc; destruct exactly; repeat split.
Qed.

(** ** Loads that stop early *)

(** Without a workspace location a load that has selected a record fails
    with NotFoundWorkspace before anything is constructed.  By then the
    detach requests have been made and, in exactly mode, the cache has been
    emptied. *)
Theorem load_without_workspace E exactly s apps :
  readConfigFile E = Ok apps ->
  uri s = None ->
  selected E exactly apps s <> [] ->
  let s' := snd (loadFromConfigurations E exactly s) in
  fst (loadFromConfigurations E exactly s)
  = Err (AppError (newError ErrorCodes.NotFoundWorkspace)) /\
  events s' = events s ++ detachRequests apps /\
  heap s' = heap s /\
  _cache s' = if exactly then [] else _cache s.
Proof.
  intros Hread Hu Hsel s'. subst s'.
  rewrite (load_run E exactly s apps Hread), Hu.
  destruct (selected E exactly apps s) as [|c sel]; [contradiction|].
  cbn [builds fst snd].
  cbn [events heap _cache with_events with_heap allocated requested map length seq].
  rewrite !app_nil_r. destruct exactly; repeat split.
Qed.

Lemma classOf_unknown c :
  type c <> "TOMCAT" -> type c <> "SPRING_BOOT" ->
  classOf c = Err (AppError (newError ErrorCodes.NoValidAppType)).
Proof.
  intros Ht Hs. unfold classOf, AppTypes_index.
  apply String.eqb_neq in Ht, Hs. now rewrite Ht, Hs.
Qed.

(** A selected record whose type names no kind ends the load with
    NoValidAppType.  The records before it have been constructed and
    initialised; nothing is written back and none of those handles reaches
    the cache. *)
Theorem load_unknown_kind_aborts E exactly s apps u pre c post :
  readConfigFile E = Ok apps ->
  uri s = Some u ->
  selected E exactly apps s = pre ++ c :: post ->
  Forall (succeeds E u) pre ->
  type c <> "TOMCAT" ->
  type c <> "SPRING_BOOT" ->
  exists s',
    loadFromConfigurations E exactly s
    = (Err (AppError (newError ErrorCodes.NoValidAppType)), s') /\
    _cache s' = (if exactly then [] else _cache s) /\
    heap s' = heap s ++ omap (boundOf E u) pre /\
    events s' = events s ++ detachRequests apps
                ++ map Init (seq (length (heap s)) (length pre)).
Proof.
  intros Hread Hu Hsel Hpre Ht Hs.
  rewrite (load_run E exactly s apps Hread), Hsel, Hu.
  destruct (builds_prefix E u pre (c :: post) Hpre) as [-> Hlen].
  cbn [builds fst snd]. rewrite (classOf_unknown c Ht Hs). cbn [fst snd].
  eexists. split; [reflexivity|].
  unfold allocated, requested. cbn [_cache heap events with_events with_heap].
  rewrite !app_nil_r, Hlen.
  destruct exactly; cbn; rewrite <- ?app_assoc; auto.
Qed.

(** When the write-back is rejected the load fails with that rejection.
    Every selected record has been constructed and initialised by then, and
    the write has been attempted; none of the new handles reaches the cache. *)
Theorem load_write_failure E exactly s apps u t :
  readConfigFile E = Ok apps ->
  uri s = Some u ->
  Forall (succeeds E u) (selected E exactly apps s) ->
  writeConfigApplication E
    (map config (omap (boundOf E u) (selected E exactly apps s))) = Some t ->
  exists s',
    loadFromConfigurations E exactly s = (Err t, s') /\
    _cache s' = (if exactly then [] else _cache s) /\
    heap s' = heap s ++ omap (boundOf E u) (selected E exactly apps s) /\
    events s' = events s ++ detachRequests apps
                ++ map Init (seq (length (heap s))
                               (length (selected E exactly apps s)))
                ++ [Write (map config
                             (omap (boundOf E u) (selected E exactly apps s)))].
Proof.
  intros Hread Hu Hall Hw.
  rewrite (load_run E exactly s apps Hread), Hu.
  destruct (builds_prefix E u _ [] Hall) as [Hb Hlen].
  rewrite app_nil_r in Hb. rewrite Hb. cbn [builds fst snd].
  rewrite app_nil_r, Hw.
  eexists. split; [reflexivity|].
  unfold allocated, requested. cbn [_cache heap events with_events with_heap].
  rewrite Hlen.
  destruct exactly; cbn; rewrite <- ?app_assoc; auto.
Qed.

(** ** Exactly mode forgets the cache *)

Lemma selected_exactly E apps s t :
  selected E true apps s = selected E true apps t.
Proof. reflexivity. Qed.

(** Once the read has succeeded, the outcome of a load in exactly mode and
    the ids it leaves in the cache depend on the file, the collaborators and
    the workspace location only: whatever was cached or constructed before
    plays no part. *)
Theorem load_exactly_forgets E s t apps :
  readConfigFile E = Ok apps ->
  uri s = uri t ->
  fst (loadFromConfigurations E true s) = fst (loadFromConfigurations E true t) /\
  cachedIds (snd (loadFromConfigurations E true s))
  = cachedIds (snd (loadFromConfigurations E true t)).
Proof.
  intros Hread Hu.
  rewrite (load_run E true s apps Hread), (load_run E true t apps Hread).
  rewrite (selected_exactly E apps s t), Hu.
  set (sel := selected E true apps t).
  set (hs := snd (builds E (uri t) sel)).
  destruct (fst (builds E (uri t) sel)) as [[]|e]; [|split; reflexivity].
  destruct (writeConfigApplication E _) as [e|]; [split; reflexivity|].
  split; [reflexivity|]. cbn [snd].
  rewrite !upsertAll_cachedIds_fold.
  change (cachedIds (with_events ?e (allocated ?h (requested ?a (cleared true ?x)))))
    with (@nil string).
  f_equal.
  rewrite (omap_idAt_fresh (heap s) hs) by reflexivity.
  rewrite (omap_idAt_fresh (heap t) hs) by reflexivity.
  reflexivity.
Qed.

(** ** Passing the same handles again *)

Lemma state_eq s s' :
  uri s' = uri s -> events s' = events s -> _cache s' = _cache s ->
  heap s' = heap s -> s' = s.
Proof. destruct s, s'. cbn. congruence. Qed.

Lemma omap_NoDup_injective {A B} (f : A -> option B) (l : list A) x y v :
  NoDup (omap f l) -> x ∈ l -> y ∈ l -> f x = Some v -> f y = Some v -> x = y.
Proof.
  induction l as [|z l IH]; intros Hnd Hx Hy Hfx Hfy.
  - now apply elem_of_nil in Hx.
  - cbn [omap list_omap] in Hnd.
    apply elem_of_cons in Hx as [->|Hx], Hy as [->|Hy]; [reflexivity| | |].
    + rewrite Hfx in Hnd. apply NoDup_cons in Hnd as [Hz _]. exfalso.
      apply Hz. apply list_elem_of_omap. eauto.
    + rewrite Hfy in Hnd. apply NoDup_cons in Hnd as [Hz _]. exfalso.
      apply Hz. apply list_elem_of_omap. eauto.
    + apply IH; auto. destruct (f z); [now apply NoDup_cons in Hnd|exact Hnd].
Qed.

Lemma entry_unique s i r r' :
  NoDup (cachedIds s) -> r ∈ _cache s -> r' ∈ _cache s ->
  idAt s r = Some i -> idAt s r' = Some i -> r = r'.
Proof. rewrite cachedIds_idAt. apply omap_NoDup_injective. Qed.

Lemma alter_same (f : Handle -> Handle) (t : Ref) (l : list Handle) h :
  l !! t = Some h -> f h = h -> alter f t l = l.
Proof.
  intros Hh Hf. apply list_eq. intros j. rewrite list_lookup_alter.
  destruct (decide (t = j)) as [<-|]; [|reflexivity]. rewrite Hh. cbn. now rewrite Hf.
Qed.

(** The step taken for [app] when its id is cached: the entry [temp] found
    under the id takes the config of [app]. *)
Lemma upsertedAt_cached app s a temp :
  NoDup (cachedIds s) ->
  heap s !! app = Some a -> temp ∈ _cache s -> idAt s temp = Some (getId a) ->
  upsertedAt app s = with_heap (alter (setConfig (config a)) temp (heap s)) s.
Proof.
  intros Hnd Ha Hin Hid. unfold upsertedAt. rewrite Ha. unfold upserted.
  assert (cached s (getId a) = true) as ->.
  { apply cached_cachedIds. rewrite cachedIds_idAt. apply list_elem_of_omap. eauto. }
  destruct (find _ _) as [temp'|] eqn:Hf.
  - destruct (firstCached_In _ _ _ (find_firstCached _ _ _ Hf)) as [Hin' Hid'].
    now rewrite (entry_unique s _ _ _ Hnd Hin' Hin Hid' Hid).
  - apply list_elem_of_In in Hin. apply (find_none _ _ Hf) in Hin.
    apply hasId_idAt in Hid. congruence.
Qed.

(** Passing a cached object itself changes nothing. *)
Lemma upsertedAt_self t s :
  NoDup (cachedIds s) -> t ∈ _cache s -> upsertedAt t s = s.
Proof.
  intros Hnd Hin. destruct (heap s !! t) as [h|] eqn:Hh.
  - rewrite (upsertedAt_cached t s h t Hnd Hh Hin) by (unfold idAt; now rewrite Hh).
    apply state_eq; try reflexivity. cbn [heap with_heap].
    apply (alter_same _ _ _ h Hh). now destruct h.
  - unfold upsertedAt. now rewrite Hh.
Qed.

Lemma agreeBut_idAt t s s' r : agreeBut t s s' -> idAt s' r = idAt s r.
Proof.
  intros (_ & _ & _ & Hother & _ & Ht). destruct (decide (r = t)) as [->|Hne];
    [exact Ht|]. unfold idAt. now rewrite Hother.
Qed.

Lemma agreeBut_cachedIds t s s' : agreeBut t s s' -> cachedIds s' = cachedIds s.
Proof.
  intros H. rewrite !cachedIds_idAt.
  destruct H as (Hu & He & Hc & Hrest). rewrite Hc.
  apply omap_pointwise. intros r.
  apply (agreeBut_idAt t s s'). repeat split; tauto.
Qed.

Lemma agreeBut_refl t s : agreeBut t s s.
Proof. repeat split. Qed.

(** One round on two states that differ in the config at [t] only: they
    still differ there only, and they are the same once the round was for
    another object with the id of [t]. *)
Lemma upsertedAt_agreeBut t s s' app :
  agreeBut t s s' -> NoDup (cachedIds s) -> t ∈ _cache s ->
  agreeBut t (upsertedAt app s) (upsertedAt app s') /\
  (app <> t -> is_Some (idAt s app) -> idAt s app = idAt s t ->
   upsertedAt app s' = upsertedAt app s).
Proof.
  intros Hag Hnd Ht.
  pose proof (agreeBut_cachedIds _ _ _ Hag) as Hids.
  pose proof (fun r => agreeBut_idAt t s s' r Hag) as HidAt.
  destruct Hag as (Hu & He & Hc & Hother & Hcfg & Hidt).
  assert (NoDup (cachedIds s')) as Hnd' by now rewrite Hids.
  assert (t ∈ _cache s') as Ht' by now rewrite Hc.
  destruct (decide (app = t)) as [->|Hne].
  { rewrite (upsertedAt_self t s Hnd Ht), (upsertedAt_self t s' Hnd' Ht').
    split; [repeat split; assumption | contradiction]. }
  pose proof (Hother app Hne) as Happ.
  destruct (heap s !! app) as [a|] eqn:Ha.
  2:{ unfold upsertedAt. rewrite Happ, Ha.
      split; [repeat split; assumption|]. intros _ [i Hi].
      unfold idAt in Hi. now rewrite Ha in Hi. }
  destruct (cached s (getId a)) eqn:Hcached.
  - (* the id of [app] is cached: some entry takes its config *)
    assert (exists temp, temp ∈ _cache s /\ idAt s temp = Some (getId a))
      as (temp & Hin & Hid).
    { apply cached_cachedIds in Hcached. rewrite cachedIds_idAt in Hcached.
      now apply list_elem_of_omap in Hcached. }
    rewrite (upsertedAt_cached app s a temp Hnd Ha Hin Hid).
    rewrite (upsertedAt_cached app s' a temp Hnd' Happ)
      by (rewrite ?Hc, ?HidAt; assumption).
    destruct (decide (temp = t)) as [->|Hnt].
    + assert (with_heap (alter (setConfig (config a)) t (heap s')) s'
              = with_heap (alter (setConfig (config a)) t (heap s)) s) as Heq.
      { apply state_eq; cbn [uri events _cache heap with_heap]; auto.
        apply list_eq. intros j. rewrite !list_lookup_alter.
        destruct (decide (t = j)) as [<-|Hj]; [apply Hcfg | apply Hother; auto]. }
      rewrite Heq. split; [apply agreeBut_refl | auto].
    + split.
      * repeat split; cbn [uri events _cache heap with_heap]; auto.
        -- intros r Hr. rewrite !list_lookup_alter.
           destruct (decide (temp = r)); [now rewrite Hother by auto | auto].
        -- intros c. rewrite !list_lookup_alter_ne by exact Hnt. apply Hcfg.
        -- unfold idAt in *. cbn [heap with_heap].
           now rewrite !list_lookup_alter_ne by exact Hnt.
      * intros _ _ Hsame. exfalso. apply Hnt.
        apply (entry_unique s (getId a)); auto.
        rewrite <- Hsame. unfold idAt. now rewrite Ha.
  - (* the id of [app] is new: it is appended on both sides *)
    assert (upsertedAt app s = with_cache (_cache s ++ [app]) s) as ->
      by (unfold upsertedAt, upserted; now rewrite Ha, Hcached).
    assert (upsertedAt app s' = with_cache (_cache s' ++ [app]) s') as ->.
    { unfold upsertedAt, upserted. rewrite Happ.
      rewrite (cached_ext s s') by exact Hids. now rewrite Hcached. }
    split.
    + repeat split; cbn [uri events _cache heap with_cache]; auto.
      now rewrite Hc.
    + intros _ _ Hsame. exfalso. apply cached_false in Hcached. apply Hcached.
      rewrite cachedIds_idAt. apply list_elem_of_omap. exists t.
      split; [exact Ht|]. rewrite <- Hsame. unfold idAt. now rewrite Ha.
Qed.

Lemma upsertedAt_cache_elem app s r : r ∈ _cache s -> r ∈ _cache (upsertedAt app s).
Proof.
  intros Hr. destruct (upsertedAt_grows app s) as (extra & -> & _).
  apply elem_of_app. now left.
Qed.

(** A difference in the config at [t] is erased by a later handle with the
    id of [t]. *)
Lemma upsertAll_erases t rest s s' :
  agreeBut t s s' -> NoDup (cachedIds s) -> t ∈ _cache s ->
  Exists (fun w => w <> t /\ is_Some (idAt s w) /\ idAt s w = idAt s t) rest ->
  upsertAll rest s' = upsertAll rest s.
Proof.
  revert s s'. induction rest as [|app rest IH]; intros s s' Hag Hnd Ht Hex.
  - now apply Exists_nil in Hex.
  - cbn [upsertAll fold_left]. change (fold_left _ rest ?x) with (upsertAll rest x).
    destruct (upsertedAt_agreeBut t s s' app Hag Hnd Ht) as [Hag' Heq].
    destruct (decide (app <> t /\ is_Some (idAt s app) /\ idAt s app = idAt s t))
      as [(H1 & H2 & H3)|Hno].
    + now rewrite (Heq H1 H2 H3).
    + apply Exists_cons in Hex as [Hhead|Htail]; [contradiction|].
      apply (IH (upsertedAt app s)); auto.
      * now apply upsertedAt_NoDup.
      * now apply upsertedAt_cache_elem.
      * eapply Exists_impl; [exact Htail|]. cbn. intros w.
        now rewrite !upsertedAt_idAt.
Qed.

(** Handles that are the entry [t] itself or have another id than [t] leave
    every object with the id of [t] as it was. *)
Lemma upsertAll_no_writer t rest s r :
  NoDup (cachedIds s) -> t ∈ _cache s ->
  Forall (fun w => ~ (w <> t /\ is_Some (idAt s w) /\ idAt s w = idAt s t)) rest ->
  idAt s r = idAt s t ->
  heap (upsertAll rest s) !! r = heap s !! r.
Proof.
  revert s. induction rest as [|w rest IH]; intros s Hnd Ht Hall Hr; [reflexivity|].
  apply Forall_cons in Hall as [Hw Hall].
  cbn [upsertAll fold_left]. change (fold_left _ rest ?x) with (upsertAll rest x).
  rewrite IH.
  - destruct (decide (w = t)) as [->|Hne]; [now rewrite upsertedAt_self|].
    destruct (decide (is_Some (idAt s w))) as [Hsome|Hnone].
    + apply upsertedAt_other. rewrite Hr. intros Hsame. apply Hw. auto.
    + unfold upsertedAt. unfold idAt in Hnone.
      destruct (heap s !! w); [|reflexivity]. exfalso. apply Hnone. cbn. eauto.
  - now apply upsertedAt_NoDup.
  - now apply upsertedAt_cache_elem.
  - eapply Forall_impl; [exact Hall|]. cbn. intros x. now rewrite !upsertedAt_idAt.
  - now rewrite !upsertedAt_idAt.
Qed.

Lemma upsertAll_cache_elem apps s r : r ∈ _cache s -> r ∈ _cache (upsertAll apps s).
Proof.
  intros Hr. destruct (upsertAll_grows apps s) as (extra & -> & _).
  apply elem_of_app. now left.
Qed.

Lemma upsertAll_idempotent apps s :
  NoDup (cachedIds s) -> upsertAll apps (upsertAll apps s) = upsertAll apps s.
Proof.
  revert s. induction apps as [|a rest IH]; intros s Hnd; [reflexivity|].
  change (upsertAll rest (upsertedAt a (upsertAll rest (upsertedAt a s)))
          = upsertAll rest (upsertedAt a s)).
  set (s0 := upsertedAt a s).
  set (s1 := upsertAll rest s0).
  assert (NoDup (cachedIds s0)) as Hnd0 by now apply upsertedAt_NoDup.
  assert (NoDup (cachedIds s1)) as Hnd1 by now apply upsertAll_NoDup.
  transitivity (upsertAll rest s1); [|exact (IH s0 Hnd0)].
  assert (forall r, idAt s1 r = idAt s r) as Hid
    by (intros r; subst s1 s0; now rewrite upsertAll_idAt, upsertedAt_idAt).
  destruct (heap s !! a) as [ha|] eqn:Ha.
  2:{ assert (heap s1 !! a = None) as Hnone.
      { specialize (Hid a). unfold idAt in Hid. rewrite Ha in Hid.
        destruct (heap s1 !! a); [discriminate|reflexivity]. }
      unfold upsertedAt at 1. now rewrite Hnone. }
  assert (idAt s a = Some (getId ha)) as Hida by (unfold idAt; now rewrite Ha).
  assert (exists a1, heap s1 !! a = Some a1 /\ getId a1 = getId ha) as (a1 & Ha1 & Hga1).
  { specialize (Hid a). rewrite Hida in Hid. unfold idAt in Hid.
    destruct (heap s1 !! a) as [a1|]; [|discriminate]. injection Hid as Hid. eauto. }
  assert (getId ha ∈ cachedIds s0) as Hc0.
  { subst s0. rewrite upsertedAt_cachedIds, Hida.
    destruct (cached s (getId ha)) eqn:Hc; [now apply cached_cachedIds|].
    apply elem_of_app. right. now left. }
  assert (exists t, t ∈ _cache s1 /\ idAt s1 t = Some (getId ha)) as (t & Ht & Hidt).
  { assert (getId ha ∈ cachedIds s1) as Hc1
      by (subst s1; apply upsertAll_cachedIds; now left).
    rewrite cachedIds_idAt in Hc1. now apply list_elem_of_omap in Hc1. }
  assert (upsertedAt a s1
          = with_heap (alter (setConfig (config a1)) t (heap s1)) s1) as Hstep
    by (apply upsertedAt_cached; auto; now rewrite Hga1).
  destruct (decide (Exists (fun w => w <> t /\ is_Some (idAt s1 w)
                                     /\ idAt s1 w = idAt s1 t) rest)) as [Hex|Hno].
  - apply (upsertAll_erases t rest s1); auto.
    rewrite Hstep. repeat split; cbn [uri events _cache heap with_heap].
    + intros r Hr. now apply list_lookup_alter_ne.
    + intros c. rewrite list_lookup_alter_eq. now destruct (heap s1 !! t).
    + unfold idAt in *. cbn [heap with_heap]. rewrite list_lookup_alter_eq.
      destruct (heap s1 !! t) as [ht|]; [|discriminate].
      unfold getId in *. cbn in *. congruence.
  - f_equal. destruct (decide (a = t)) as [->|Hne]; [now apply upsertedAt_self|].
    apply not_Exists_Forall in Hno; [|intros w; apply _].
    (* the id of [a] was cached from the start, at [t] *)
    assert (cached s (getId ha) = true) as Hcached.
    { destruct (cached s (getId ha)) eqn:Hc; [reflexivity|]. exfalso. apply Hne.
      apply (entry_unique s1 (getId ha)); auto; [|now rewrite Hid].
      subst s1. apply upsertAll_cache_elem. subst s0.
      unfold upsertedAt, upserted. rewrite Ha, Hc. cbn.
      apply elem_of_app. right. now left. }
    assert (t ∈ _cache s) as Hts.
    { apply cached_cachedIds in Hcached. rewrite cachedIds_idAt in Hcached.
      apply list_elem_of_omap in Hcached as (t' & Ht' & Hidt').
      assert (t' = t) as <-; [|exact Ht'].
      apply (entry_unique s1 (getId ha)); auto; [|now rewrite Hid].
      subst s1 s0. now apply upsertAll_cache_elem, upsertedAt_cache_elem. }
    assert (idAt s t = Some (getId ha)) as Hidts by now rewrite <- Hid.
    assert (s0 = with_heap (alter (setConfig (config ha)) t (heap s)) s) as Hs0
      by (subst s0; now apply upsertedAt_cached).
    assert (t ∈ _cache s0) as Ht0 by (subst s0; now apply upsertedAt_cache_elem).
    assert (Forall (fun w => ~ (w <> t /\ is_Some (idAt s0 w)
                                /\ idAt s0 w = idAt s0 t)) rest) as Hno0.
    { eapply Forall_impl; [exact Hno|]. cbn. intros w Hw. unfold s0.
      now rewrite !upsertedAt_idAt, <- !Hid. }
    assert (heap s1 !! t = heap s0 !! t) as Hkeep_t
      by (subst s1; now apply (upsertAll_no_writer t)).
    assert (heap s1 !! a = heap s0 !! a) as Hkeep_a.
    { subst s1. apply (upsertAll_no_writer t); auto.
      unfold s0. now rewrite !upsertedAt_idAt, Hida, Hidts. }
    assert (heap s0 !! a = Some ha) as Ha0
      by (rewrite Hs0; cbn; now rewrite list_lookup_alter_ne by auto).
    assert (a1 = ha) as -> by congruence.
    rewrite Hstep. apply state_eq; try reflexivity. cbn [heap with_heap].
    unfold idAt in Hidts. destruct (heap s !! t) as [ht|] eqn:Hht; [|discriminate].
    apply (alter_same _ _ _ (setConfig (config ha) ht)); [|reflexivity].
    rewrite Hkeep_t, Hs0. cbn [heap with_heap]. now rewrite list_lookup_alter_eq, Hht.
Qed.

(** Passing the same list to [setAppsToContainer] a second time changes
    nothing: for a cache without repeated ids, the second call returns the
    same cache and leaves every object as the first call left it. *)
Theorem setAppsToContainer_again apps s :
  Forall (fun r => r < length (heap s)) apps ->
  NoDup (cachedIds s) ->
  setAppsToContainer apps (snd (setAppsToContainer apps s))
  = setAppsToContainer apps s.
Proof.
  intros Hvalid Hnd. unfold setAppsToContainer.
  rewrite !run_bind, (forEach_upsert_run apps s Hvalid). cbn [snd]. run.
  rewrite forEach_upsert_run
    by (rewrite upsertAll_length; exact Hvalid).
  now rewrite upsertAll_idempotent.
Qed.

(** ** Setting the workspace location again *)

(** [initialize] may be called again.  From then on [createApplication]
    binds new handles to the new location; the cache and the handles that
    exist already are not touched, so they stay bound to the old one. *)
Theorem initialize_then_createApplication E ty i s u :
  registeredKind ty ->
  let s1 := snd (initialize u s) in
  let s2 := snd (createApplication E ty i s1) in
  fst (getWorkspaceUri s1) = Ok (Some u) /\
  fst (createApplication E ty i s1) = Ok (length (heap s)) /\
  (exists h, heap s2 = heap s ++ [h] /\ h_uri h = u) /\
  _cache s2 = _cache s.
Proof.
  intros Hr s1 s2. destruct (findClassModule_registered _ Hr) as (App & Hc & _).
  subst s2. rewrite createApplication_run. subst s1. cbn [initialize modify snd uri with_uri].
  rewrite Hc. cbn [fst snd]. split; [reflexivity|]. split; [reflexivity|].
  split; [|reflexivity]. eexists. split; reflexivity.
Qed.

(** * Runs for the further properties *)

Import MoreSamples.

Lemma mergeProperties_stable_witness :
  mergeProperties [port 8080 true; nameProperty]
    (mergeProperties [port 8080 true; nameProperty] [port 9090 true])
  = mergeProperties [port 8080 true; nameProperty] [port 9090 true].
Proof.
  apply mergeProperties_stable.
  - cbn. apply NoDup_cons. split; [|apply NoDup_singleton].
    intros H. apply list_elem_of_singleton in H. discriminate.
  - cbn. apply NoDup_singleton.
Defined.

Lemma valid_twins : Forall (fun r => r < length (heap twins)) [0; 1].
Proof. repeat constructor. Qed.

Lemma NoDup_twins : NoDup (cachedIds twins).
Proof. apply NoDup_nil_2. Qed.

Lemma setAppsToContainer_frame_witness :
  uri (snd (setAppsToContainer [0; 1] twins)) = uri twins.
Proof. exact (proj1 (setAppsToContainer_frame [0; 1] twins valid_twins)). Defined.

Lemma setAppsToContainer_then_getApplication_witness :
  exists r,
    fst (getApplication "a" (snd (setAppsToContainer [0; 1] twins))) = Ok (Some r) /\
    idAt (snd (setAppsToContainer [0; 1] twins)) r = Some "a".
Proof.
  refine (proj1 (setAppsToContainer_then_getApplication [0; 1] twins valid_twins)
            1 (construct (E0 []) SPRING_BOOT "a" "file:///ws") _ _).
  - simpl. auto.
  - reflexivity.
Defined.

Lemma setAppsToContainer_ids_witness :
  cachedIds (snd (setAppsToContainer [0; 1] twins))
  = addIds (cachedIds twins) (omap (idAt twins) [0; 1]).
Proof. exact (proj1 (setAppsToContainer_ids [0; 1] twins valid_twins)). Defined.

Example twins_ids : cachedIds (snd (setAppsToContainer [0; 1] twins)) = ["a"].
Proof. reflexivity. Qed.

Lemma setAppsToContainer_again_witness :
  setAppsToContainer [0; 1] (snd (setAppsToContainer [0; 1] twins))
  = setAppsToContainer [0; 1] twins.
Proof. exact (setAppsToContainer_again [0; 1] twins valid_twins NoDup_twins). Defined.

Lemma createApplication_then_register_witness :
  fst (createApplication (E0 []) (Some "TOMCAT") (Some "b") withA)
  = Ok (length (heap withA)).
Proof.
  refine (proj1 (createApplication_then_register (E0 []) (Some "TOMCAT") "b" withA
                   "file:///ws" TOMCAT wf_withA _ _ _)).
  - reflexivity.
  - reflexivity.
  - discriminate.
Defined.

(** Registering a new handle under the id of a loaded application resets that
    application's properties and path. *)
Example register_over_loaded :
  config <$> heap withA !! 0 = Some (merged (E0 []) TOMCAT recA) /\
  config <$> heap (snd (setAppsToContainer [1]
                          (snd (createApplication (E0 []) (Some "TOMCAT") (Some "a") withA))))
             !! 0
  = Some {| id := "a"; type := "TOMCAT"; appPath := ""; properties := [port 8080 true] |}.
Proof. split; reflexivity. Qed.

Lemma load_exactly_is_reset_then_load_witness :
  loadFromConfigurations (E0 [recB]) true withA
  = loadFromConfigurations (E0 [recB]) false (snd (reset withA)).
Proof.
  apply (load_exactly_is_reset_then_load (E0 [recB]) withA [recB]). reflexivity.
Defined.

Lemma load_leaves_existing_objects_witness :
  heap (snd (loadFromConfigurations (E0 [recA_fixed; recB]) false withA)) !! 0
  = heap withA !! 0.
Proof.
  refine (proj1 (load_leaves_existing_objects (E0 [recA_fixed; recB]) false withA
                   wf_withA) 0 _).
  vm_compute. constructor.
Defined.

Lemma load_success_ids_witness :
  cachedIds (snd (loadFromConfigurations (E0 [recA; recB; recA_fixed]) false ready))
  = addIds (cachedIds (cleared false ready))
      (map id (selected (E0 [recA; recB; recA_fixed]) false [recA; recB; recA_fixed] ready)).
Proof.
  refine (proj1 (load_success_ids (E0 [recA; recB; recA_fixed]) false ready
                   [recA; recB; recA_fixed] _ wf_ready _)); reflexivity.
Defined.

Lemma load_success_calls_witness :
  exists cs,
    events (snd (loadFromConfigurations (E0 [recA; recB; recA_fixed]) false ready))
    = events ready ++ detachRequests [recA; recB; recA_fixed]
      ++ map Init (seq (length (heap ready))
                     (length (selected (E0 [recA; recB; recA_fixed]) false
                                [recA; recB; recA_fixed] ready)))
      ++ [Write cs] /\
    Forall2 (fun c w => exists App, classOf c = Ok App
                                    /\ w = merged (E0 [recA; recB; recA_fixed]) App c)
      (selected (E0 [recA; recB; recA_fixed]) false [recA; recB; recA_fixed] ready) cs /\
    length (heap (snd (loadFromConfigurations (E0 [recA; recB; recA_fixed]) false ready)))
    = length (heap ready)
      + length (selected (E0 [recA; recB; recA_fixed]) false [recA; recB; recA_fixed] ready).
Proof.
  apply (load_success_calls (E0 [recA; recB; recA_fixed]) false ready
           [recA; recB; recA_fixed]); reflexivity.
Defined.

(** Three records, two of them under the id "a": three [init] calls, two
    cache entries. *)
Example load_duplicate_id :
  events (snd (loadFromConfigurations (E0 [recA; recB; recA_fixed]) false ready))
  = [Init 0; Init 1; Init 2;
     Write [merged (E0 []) TOMCAT recA; merged (E0 []) TOMCAT recB;
            merged (E0 []) TOMCAT recA_fixed]] /\
  _cache (snd (loadFromConfigurations (E0 [recA; recB; recA_fixed]) false ready)) = [0; 1].
Proof. split; reflexivity. Qed.

Lemma load_nothing_selected_witness :
  fst (loadFromConfigurations (E0 [recA]) false withA)
  = match writeConfigApplication (E0 [recA]) [] with
    | Some t => Err t
    | None => Ok tt
    end.
Proof.
  refine (proj1 (load_nothing_selected (E0 [recA]) false withA [recA] _ _));
    reflexivity.
Defined.

Lemma load_without_workspace_witness :
  fst (loadFromConfigurations (E0 [recA_blank; recB]) true unset)
  = Err (AppError (newError ErrorCodes.NotFoundWorkspace)).
Proof.
  refine (proj1 (load_without_workspace (E0 [recA_blank; recB]) true unset
                   [recA_blank; recB] _ _ _)).
  - reflexivity.
  - reflexivity.
  - vm_compute. discriminate.
Defined.

Lemma load_unknown_kind_aborts_witness :
  exists s',
    loadFromConfigurations (E0 [recB; recUnknown; recC]) false ready
    = (Err (AppError (newError ErrorCodes.NoValidAppType)), s') /\
    _cache s' = _cache ready /\
    heap s' = heap ready
              ++ omap (boundOf (E0 [recB; recUnknown; recC]) "file:///ws") [recB] /\
    events s' = events ready ++ detachRequests [recB; recUnknown; recC]
                ++ map Init (seq (length (heap ready)) (length [recB])).
Proof.
  apply (load_unknown_kind_aborts (E0 [recB; recUnknown; recC]) false ready
           [recB; recUnknown; recC] "file:///ws" [recB] recUnknown [recC]).
  - reflexivity.
  - reflexivity.
  - reflexivity.
  - constructor; [|constructor]. eexists. split; reflexivity.
  - vm_compute. discriminate.
  - vm_compute. discriminate.
Defined.

Lemma load_write_failure_witness :
  exists s',
    loadFromConfigurations (E_writeFails [recA; recB]) false ready
    = (Err (Failure "EACCES"), s') /\
    _cache s' = _cache ready /\
    heap s' = heap ready
              ++ omap (boundOf (E_writeFails [recA; recB]) "file:///ws")
                   (selected (E_writeFails [recA; recB]) false [recA; recB] ready) /\
    events s' = events ready ++ detachRequests [recA; recB]
                ++ map Init (seq (length (heap ready))
                               (length (selected (E_writeFails [recA; recB]) false
                                          [recA; recB] ready)))
                ++ [Write (map config
                             (omap (boundOf (E_writeFails [recA; recB]) "file:///ws")
                                (selected (E_writeFails [recA; recB]) false
                                   [recA; recB] ready)))].
Proof.
  apply (load_write_failure (E_writeFails [recA; recB]) false ready [recA; recB]
           "file:///ws" (Failure "EACCES")).
  - reflexivity.
  - reflexivity.
  - repeat constructor; eexists; split; reflexivity.
  - reflexivity.
Defined.

Lemma load_exactly_forgets_witness :
  fst (loadFromConfigurations (E0 [recB]) true withA)
  = fst (loadFromConfigurations (E0 [recB]) true ready).
Proof.
  refine (proj1 (load_exactly_forgets (E0 [recB]) withA ready [recB] _ _));
    reflexivity.
Defined.

Lemma initialize_then_createApplication_witness :
  fst (getWorkspaceUri (snd (initialize "file:///other" withA)))
  = Ok (Some "file:///other").
Proof.
  refine (proj1 (initialize_then_createApplication (E0 []) (Some "SPRING_BOOT") None
                   withA "file:///other" _)).
  right. reflexivity.
Defined.
